(** * Exponential-scale retention of machine images (backup_func.py)

    A shallow embedding of [BackupSet], [get_images], [get_snapshots],
    [get_instances], [backup_instance], [remove_backup] and the loop of
    [lambda_handler] with the EC2 client it calls, followed by the
    properties of the retention engine, of the catalogue and of the loop.

    Conventions of the embedding.
    - A [datetime.date] is its proleptic ordinal ([date.toordinal()]), an
      integer; [(a - b).days] is then the integer difference [a - b].
    - Python integers are [Z]; list indices and the cursor are [nat] (the
      cursor starts at 0 and is only ever incremented).
    - A Python [str] is kept as its UTF-8 encoding, a [string] of bytes: a
      string literal of this file is the bytes of what is written, so
      ["web-²"] is [web-] followed by the two bytes 194 and 178.  Comparing,
      concatenating and looking up strings read the same on the encoding.
      Where the script looks at characters ([isdigit]) the code points are
      decoded; where it cuts a [str] ([rfind] with a slice, [startswith]
      with a slice) it cuts next to ASCII characters, which are one byte
      each and part of no longer sequence, so the cut of the encoding is the
      encoding of the cut.
    - A [print] has no effect on the run apart from the subscripts it
      evaluates, which can raise [IndexError]; those subscripts are kept. *)

From Stdlib Require Import ZArith Lia Ascii String.
From stdpp Require Import base list sorting strings pretty gmap.

(** ** Data *)

(** The dict [{'id': image_id, 'created_at': created_at}] of [get_images]. *)
Record image := Image { id : string; created_at : Z }.

(** What one step of the cursor does to the image under it: the line printed
    by [_keep_and_inc], or the call [aws_remove_func(image['id'], snapshots)]
    made by [_remove_and_inc]. *)
Inductive event :=
| Keeping (image_id : string)
| Removing (image_id : string) (snapshots : list string).

(** Outcome of a method: a value, the [IndexError] of a subscript out of
    range, or the marker of a loop that was cut off by its iteration budget. *)
Inductive result (A : Type) :=
| Ok (a : A)
| IndexError
| OutOfFuel.
Arguments Ok {A} a.
Arguments IndexError {A}.
Arguments OutOfFuel {A}.

Module BackupSet.

(** The two class constants. *)
Record constants := Constants { MAX_ORDER : Z; DAYS_TO_KEEP_BACKUPS : Z }.

(** [MAX_ORDER = 6], [DAYS_TO_KEEP_BACKUPS = 365]. *)
Definition class_constants : constants :=
  {| MAX_ORDER := 6; DAYS_TO_KEEP_BACKUPS := 365 |}.

(** The attributes a run reassigns: [self.backup_num],
    [self.backup_days_ago], and the record [log] of what was printed or
    passed to [aws_remove_func] so far. *)
Record cursor := Cursor {
  backup_num : nat;
  backup_days_ago : Z;
  log : list event
}.

(** Methods are state transformers over the cursor that may raise. *)
Definition M (A : Type) : Type := cursor → result (A * cursor).

Definition ret {A} (a : A) : M A := λ s, Ok (a, s).

Definition bind {A B} (m : M A) (k : A → M B) : M B := λ s,
  match m s with
  | Ok (a, s') => k a s'
  | IndexError => IndexError
  | OutOfFuel => OutOfFuel
  end.

Notation "x <- m ;; k" := (bind m (λ x, k))
  (at level 100, m at next level, right associativity).

(** [range(start, stop, -1)]: [start, start - 1, ..., stop + 1]. *)
Definition range_down (start stop : Z) : list Z :=
  (λ k : nat, (start - Z.of_nat k)%Z) <$> seq 0 (Z.to_nat (start - stop)).

Section methods.
(** The constants, and the attributes [__init__] sets once and for all:
    [self.name], [self.images], [self.today], [self.all_snapshots]. *)
Context (C : constants).
Context (name : string) (images : list image) (today : Z).
Context (all_snapshots : gmap string (list string)).

(** [l[n]] for a non-negative [n]. *)
Definition subscript (n : nat) : M image := λ s,
  match images !! n with
  | Some i => Ok (i, s)
  | None => IndexError
  end.

Definition _update_days_ago : M unit := λ s,
  match images !! backup_num s with
  | Some i =>
      Ok (tt, {| backup_num := backup_num s;
                 backup_days_ago := (today - created_at i)%Z;
                 log := log s |})
  | None => IndexError
  end.

Definition _inc_backup_num : M bool := λ s,
  let s1 := {| backup_num := S (backup_num s);
               backup_days_ago := backup_days_ago s;
               log := log s |} in
  if (backup_num s1 <? length images)%nat
  then (_ <- _update_days_ago ;; ret false) s1
  else Ok (true, s1).

Definition emit (e : event) : M unit := λ s,
  Ok (tt, {| backup_num := backup_num s;
             backup_days_ago := backup_days_ago s;
             log := log s ++ [e] |}).

Definition _keep_and_inc : M bool :=
  λ s, (i <- subscript (backup_num s) ;;
        _ <- emit (Keeping (id i)) ;;
        _inc_backup_num) s.

Definition _remove_and_inc : M bool :=
  λ s, (image <- subscript (backup_num s) ;;
        let image_id := id image in
        let snapshots := default [] (all_snapshots !! image_id) in
        _ <- emit (Removing (id image) snapshots) ;;
        _inc_backup_num) s.

(** [while self.backup_days_ago > DAYS_TO_KEEP_BACKUPS and
           len(self.images) - self.backup_num >= MAX_ORDER:
        self._remove_and_inc()]
    (the value returned by [_remove_and_inc] is dropped). *)
Fixpoint remove_really_old (fuel : nat) : M unit := λ s,
  if (DAYS_TO_KEEP_BACKUPS C <? backup_days_ago s)%Z
     && (MAX_ORDER C <=? Z.of_nat (length images) - Z.of_nat (backup_num s))%Z
  then match fuel with
       | O => OutOfFuel
       | S fuel' => (_ <- _remove_and_inc ;; remove_really_old fuel') s
       end
  else Ok (tt, s).

(** [while self.backup_days_ago > upper_bound:
        if self._keep_and_inc(): return]
    The boolean tells whether the method returned from inside the loop. *)
Fixpoint skip_older (upper_bound : Z) (fuel : nat) : M bool := λ s,
  if (upper_bound <? backup_days_ago s)%Z
  then match fuel with
       | O => OutOfFuel
       | S fuel' =>
           (stop <- _keep_and_inc ;;
            if stop : bool then ret true else skip_older upper_bound fuel') s
       end
  else Ok (false, s).

(** [while self.backup_days_ago > lower_bound:
        if self._remove_and_inc(): return] *)
Fixpoint remove_others (lower_bound : Z) (fuel : nat) : M bool := λ s,
  if (lower_bound <? backup_days_ago s)%Z
  then match fuel with
       | O => OutOfFuel
       | S fuel' =>
           (stop <- _remove_and_inc ;;
            if stop : bool then ret true else remove_others lower_bound fuel') s
       end
  else Ok (false, s).

(** The [for n in range(MAX_ORDER, 1, -1)] loop, over the values of [n]
    still to come. *)
Fixpoint for_n (ns : list Z) (fuel : nat) : M unit :=
  match ns with
  | [] => ret tt
  | n :: ns' => λ s,
      let lower_bound := (2 ^ (n - 1))%Z in
      if (lower_bound <? backup_days_ago s)%Z
      then (stop <- _keep_and_inc ;;
            if stop : bool then ret tt else
            stop <- remove_others lower_bound fuel ;;
            if stop : bool then ret tt else for_n ns' fuel) s
      else for_n ns' fuel s
  end.

(** The cursor as [__init__] leaves it; [backup_days_ago] is not set
    before the first [_update_days_ago], and is not read before it. *)
Definition init : cursor :=
  {| backup_num := 0; backup_days_ago := 0; log := [] |}.

(** [remove_old_backups], with an iteration budget of [len(images) + 1]
    for each [while] loop.  The result is the record of the run.
    [pow(2, MAX_ORDER)] is a float strictly between 0 and 1 when [MAX_ORDER]
    is negative; an integer age exceeds it exactly when it exceeds
    [2 ^ MAX_ORDER = 0].  The callback is taken to return. *)
Definition remove_old_backups : result (list event) :=
  if (Z.of_nat (length images) <? MAX_ORDER C)%Z then Ok []
  else
    let fuel := S (length images) in
    match
      (_ <- _update_days_ago ;;
       _ <- remove_really_old fuel ;;
       let upper_bound := (2 ^ MAX_ORDER C)%Z in
       stop <- skip_older upper_bound fuel ;;
       if stop : bool then ret tt
       else for_n (range_down (MAX_ORDER C) 1) fuel) init
    with
    | Ok (_, s) => Ok (log s)
    | IndexError => IndexError
    | OutOfFuel => OutOfFuel
    end.
End methods.

End BackupSet.

(** ** Reading a record of a run *)

Definition is_removing (e : event) : bool :=
  match e with Removing _ _ => true | Keeping _ => false end.

(** The images the [k]-th entries of the record say were removed. *)
Fixpoint removed (images : list image) (log : list event) : list image :=
  match images, log with
  | x :: images', e :: log' =>
      if is_removing e then x :: removed images' log' else removed images' log'
  | _, _ => []
  end.

(** The images left: those recorded as kept and those the cursor never
    reached. *)
Fixpoint survivors (images : list image) (log : list event) : list image :=
  match images, log with
  | x :: images', e :: log' =>
      if is_removing e then survivors images' log' else x :: survivors images' log'
  | _, _ => images
  end.

Definition age (today : Z) (x : image) : Z := (today - created_at x)%Z.

(** A group whose image [k] was created [ages[k]] days before [today]. *)
Definition group_of_ages (today : Z) (ages : list Z) : list image :=
  imap (λ k a, Image ("ami-" +:+ pretty k) (today - a)%Z) ages.



(** ** The run, phase by phase, on the list of images still ahead

    The same decisions as [BackupSet.remove_old_backups], written as
    functions of the images from the cursor on.  [plan_refines] below shows
    that the method computes exactly this record. *)

Section plan.
Context (C : BackupSet.constants) (today : Z).
Context (all_snapshots : gmap string (list string)).

Definition keeping_of (x : image) : event := Keeping (id x).

Definition removing_of (x : image) : event :=
  Removing (id x) (default [] (all_snapshots !! id x)).

(** How many images the absolute-age loop removes. *)
Fixpoint expired (l : list image) : nat :=
  match l with
  | x :: l' =>
      if (BackupSet.DAYS_TO_KEEP_BACKUPS C <? age today x)%Z
         && (BackupSet.MAX_ORDER C <=? Z.of_nat (length l))%Z
      then S (expired l') else 0
  | [] => 0
  end.

(** Length of the leading run of images older than [bound] days. *)
Fixpoint count_older (bound : Z) (l : list image) : nat :=
  match l with
  | x :: l' => if (bound <? age today x)%Z then S (count_older bound l') else 0
  | [] => 0
  end.

(** The record of the [for n] loop. *)
Fixpoint thin (ns : list Z) (l : list image) : list event :=
  match ns, l with
  | n :: ns', x :: l' =>
      if (2 ^ (n - 1) <? age today x)%Z then
        let k := count_older (2 ^ (n - 1)) l' in
        keeping_of x :: (removing_of <$> take k l') ++ thin ns' (drop k l')
      else thin ns' l
  | _, _ => []
  end.

(** The images the [for n] loop leaves. *)
Fixpoint thinned (ns : list Z) (l : list image) : list image :=
  match ns, l with
  | n :: ns', x :: l' =>
      if (2 ^ (n - 1) <? age today x)%Z then
        x :: thinned ns' (drop (count_older (2 ^ (n - 1)) l') l')
      else thinned ns' l
  | _, _ => l
  end.

Definition plan (l : list image) : list event :=
  if (Z.of_nat (length l) <? BackupSet.MAX_ORDER C)%Z then []
  else
    let l1 := drop (expired l) l in
    let k := count_older (2 ^ BackupSet.MAX_ORDER C) l1 in
    (removing_of <$> take (expired l) l)
    ++ (keeping_of <$> take k l1)
    ++ thin (BackupSet.range_down (BackupSet.MAX_ORDER C) 1) (drop k l1).
End plan.

(** ** Vocabulary of the properties *)

(** Sorted ascending by [created_at], oldest first; equal dates allowed. *)
Definition ascending (l : list image) : Prop :=
  StronglySorted (λ a b, (created_at a ≤ created_at b)%Z) l.

(** Sorted with all dates distinct. *)
Definition strictly_ascending (l : list image) : Prop :=
  StronglySorted (λ a b, (created_at a < created_at b)%Z) l.

(** Age in the interval [(2^(n-1), 2^n]]. *)
Definition in_bucket (today n : Z) (x : image) : Prop :=
  (2 ^ (n - 1) < age today x ∧ age today x ≤ 2 ^ n)%Z.

#[global] Instance in_bucket_dec today n x : Decision (in_bucket today n x).
Proof. unfold in_bucket. apply _. Defined.

(** The arguments of the successive calls of the deletion callback. *)
Fixpoint calls (log : list event) : list (string * list string) :=
  match log with
  | Removing image_id snapshots :: log' => (image_id, snapshots) :: calls log'
  | Keeping _ :: log' => calls log'
  | [] => []
  end.

(** Bucket uniqueness for bucket [n]: at most one survivor has its age in
    the bucket, and that survivor is the first, hence oldest, member of the
    bucket in the original group. *)
Definition bucket_unique (today n : Z) (images kept : list image) : Prop :=
  (length (filter (in_bucket today n) kept) ≤ 1)%nat
  ∧ ∀ b, b ∈ filter (in_bucket today n) kept →
         head (filter (in_bucket today n) images) = Some b
         ∧ ∀ x, x ∈ images → in_bucket today n x → (age today x ≤ age today b)%Z.

(** ** The catalogue: [get_images] *)

(** One element of [describe_images(...)['Images']], with the fields the
    script reads.  [CreationDate] stands for the date
    [strptime(i['CreationDate'].split('T')[0], "%Y-%m-%d").date()]. *)
Record raw_image := RawImage {
  Public : bool;
  Name : string;
  ImageId : string;
  CreationDate : Z
}.

(** [s.rfind(c)] for an ASCII character [c]: the highest index of [c] in
    [s], or -1.  The index counts bytes; the script looks only at its sign
    and cuts [s] before and after it, and the byte found is a character of
    its own, since the bytes of a longer sequence are all above 127. *)
Fixpoint rfind (c : ascii) (s : string) : Z :=
  match s with
  | EmptyString => (-1)%Z
  | String a s' =>
      let r := rfind c s' in
      if (0 <=? r)%Z then (r + 1)%Z
      else if Ascii.eqb a c then 0%Z else (-1)%Z
  end.

(** [s[n:]] and [s[0:n]] for a non-negative [n]. *)
Fixpoint slice_from (n : nat) (s : string) : string :=
  match n, s with
  | S n', String _ s' => slice_from n' s'
  | _, _ => s
  end.

Fixpoint slice_upto (n : nat) (s : string) : string :=
  match n, s with
  | S n', String a s' => String a (slice_upto n' s')
  | _, _ => EmptyString
  end.

(** The payload of a continuation byte [10xxxxxx] of UTF-8. *)
Definition continuation (a : ascii) : option N :=
  let b := N_of_ascii a in
  if (128 <=? b)%N && (b <? 192)%N then Some (b - 128)%N else None.

(** The code points of a [str], decoded from its UTF-8 encoding: sequences
    of one to four bytes, shortest form only, no surrogate, nothing above
    U+10FFFF.  [None] for bytes that are the encoding of no [str]. *)
Fixpoint code_points (s : string) : option (list N) :=
  match s with
  | EmptyString => Some []
  | String a s1 =>
      let b := N_of_ascii a in
      if (b <? 128)%N then cons b <$> code_points s1
      else if (b <? 192)%N then None
      else if (b <? 224)%N then
        match s1 with
        | String a1 s2 =>
            match continuation a1 with
            | Some x1 =>
                let c := ((b - 192) * 64 + x1)%N in
                if (128 <=? c)%N then cons c <$> code_points s2 else None
            | None => None
            end
        | _ => None
        end
      else if (b <? 240)%N then
        match s1 with
        | String a1 (String a2 s3) =>
            match continuation a1, continuation a2 with
            | Some x1, Some x2 =>
                let c := (((b - 224) * 64 + x1) * 64 + x2)%N in
                if (2048 <=? c)%N && negb ((55296 <=? c)%N && (c <=? 57343)%N)
                then cons c <$> code_points s3 else None
            | _, _ => None
            end
        | _ => None
        end
      else if (b <? 248)%N then
        match s1 with
        | String a1 (String a2 (String a3 s4)) =>
            match continuation a1, continuation a2, continuation a3 with
            | Some x1, Some x2, Some x3 =>
                let c := ((((b - 240) * 64 + x1) * 64 + x2) * 64 + x3)%N in
                if (65536 <=? c)%N && (c <=? 1114111)%N
                then cons c <$> code_points s4 else None
            | _, _, _ => None
            end
        | _ => None
        end
      else None
  end.

(** The characters [str.isdigit] counts as digits: those of the Unicode
    Character Database with [Numeric_Type] [Decimal] or [Digit], as ranges
    of code points (Unicode 14.0.0, the database of CPython 3.11).  The
    first range is ['0'..'9']; then come the superscripts two, three and
    one, the Arabic-Indic digits, and so on through the scripts. *)
Definition unicode_digits : list (N * N) :=
  [ (48, 57); (178, 179); (185, 185); (1632, 1641); (1776, 1785);
    (1984, 1993); (2406, 2415); (2534, 2543); (2662, 2671); (2790, 2799);
    (2918, 2927); (3046, 3055); (3174, 3183); (3302, 3311); (3430, 3439);
    (3558, 3567); (3664, 3673); (3792, 3801); (3872, 3881); (4160, 4169);
    (4240, 4249); (4969, 4977); (6112, 6121); (6160, 6169); (6470, 6479);
    (6608, 6618); (6784, 6793); (6800, 6809); (6992, 7001); (7088, 7097);
    (7232, 7241); (7248, 7257); (8304, 8304); (8308, 8313); (8320, 8329);
    (9312, 9320); (9332, 9340); (9352, 9360); (9450, 9450); (9461, 9469);
    (9471, 9471); (10102, 10110); (10112, 10120); (10122, 10130);
    (42528, 42537); (43216, 43225); (43264, 43273); (43472, 43481);
    (43504, 43513); (43600, 43609); (44016, 44025); (65296, 65305);
    (66720, 66729); (68160, 68163); (68912, 68921); (69216, 69224);
    (69714, 69722); (69734, 69743); (69872, 69881); (69942, 69951);
    (70096, 70105); (70384, 70393); (70736, 70745); (70864, 70873);
    (71248, 71257); (71360, 71369); (71472, 71481); (71904, 71913);
    (72016, 72025); (72784, 72793); (73040, 73049); (73120, 73129);
    (92768, 92777); (92864, 92873); (93008, 93017); (120782, 120831);
    (123200, 123209); (123632, 123641); (125264, 125273); (127232, 127242);
    (130032, 130041) ]%N.

Definition unicode_digit (c : N) : bool :=
  existsb (λ r, (r.1 <=? c)%N && (c <=? r.2)%N) unicode_digits.

(** [s.isdigit()]: every character of [s] is a digit and there is at least
    one. *)
Definition isdigit (s : string) : bool :=
  match code_points s with
  | Some (c :: l) => forallb unicode_digit (c :: l)
  | _ => false
  end.

(** The body of the [for i in response] loop. *)
Definition get_images_step (all_images : gmap string (list image)) (i : raw_image)
  : gmap string (list image) :=
  if negb (Public i) then
    let name := Name i in
    let image_id := ImageId i in
    let created_at := CreationDate i in
    let pos := rfind "-" name in
    if (0 <? pos)%Z && isdigit (slice_from (Z.to_nat (pos + 1)) name) then
      let name := slice_upto (Z.to_nat pos) name in
      let all_images :=
        match all_images !! name with
        | None => <[name := []]> all_images
        | Some _ => all_images
        end in
      <[name := default [] (all_images !! name) ++ [Image image_id created_at]]>
        all_images
    else all_images
  else all_images.

Definition get_images (response : list raw_image) : gmap string (list image) :=
  foldl get_images_step ∅ response.

(** ** The orchestrator: the loop of [lambda_handler] *)

(** One element of [get_instances()], with the fields the script reads;
    [State] is [i['State']['Name']]. *)
Record instance := Instance {
  InstanceId : string;
  Tags : list (string * string);
  State : string
}.

(** The calls made to the EC2 client. *)
Inductive api_call :=
| create_image (InstanceId Name Description : string) (NoReboot : bool)
| deregister_image (ImageId : string)
| delete_snapshot (SnapshotId : string).

Definition DESC_NAMES : gmap string string :=
  list_to_map [("infosrv", "Informational Server");
               ("exchange", "MS Exchange Server");
               ("openvpn", "OpenVPC Gateway")]%string.

Definition PREFIX_NAMES : gmap string string :=
  list_to_map [("ec2", "EC2"); ("vpc", "VPC")]%string.

Definition get_tag (i : instance) (tag_name : string) : option string :=
  snd <$> List.find (λ t, String.eqb (fst t) tag_name) (Tags i).

Definition format_desc_name (prefix name : string) : string :=
  if (String.length prefix =? 0)%nat then name else prefix +:+ " " +:+ name.

(** [images.sort(key=lambda r: r['created_at'])]: a stable sort. *)
Fixpoint insert_by_date (x : image) (l : list image) : list image :=
  match l with
  | y :: l' =>
      if (created_at x <=? created_at y)%Z then x :: l
      else y :: insert_by_date x l'
  | [] => [x]
  end.

Definition sort_by_date (l : list image) : list image :=
  foldr insert_by_date [] l.

(** [remove_backup], the deletion callback handed to [BackupSet]. *)
Definition remove_backup (image_id : string) (snapshots : list string) : list api_call :=
  deregister_image image_id :: (delete_snapshot <$> snapshots).

(** What the visit of one instance did. *)
Record visit := Visit {
  subject : option string;       (* [name], the tag "Name" of the instance *)
  created : option api_call;     (* the [create_image] call, if one was made *)
  history : list image;          (* the [images] handed to [BackupSet] *)
  pruning : result (list event)  (* the run of [remove_old_backups] *)
}.

(** What the body of the loop sets out to do for one instance, before the
    EC2 client has its say. *)
Inductive outcome :=
| Ignored                        (* an OpsWorks instance *)
| Raised_IndexError              (* [dates[0]] on an empty list *)
| Raised_AttributeError          (* [name.startswith] with [name] being [None] *)
| Visited (v : visit) (all_images' : gmap string (list image)).

(** The EC2 client [ec], for the three calls that change something.  The
    script has no [try], and it reads nothing of what these calls return
    (the answer to [create_image] is only printed): all that matters of the
    client is whether a call returns or raises.  [ec answered c] tells
    whether the call [c] raises, [answered] being the calls the client has
    answered since the invocation began. *)
Definition client : Type := list api_call → api_call → bool.

(** The client that answers every call. *)
Definition obliging : client := λ _ _, false.

(** Making the calls [cs] one after the other: the first call that raises,
    with the calls of [cs] answered before it; [None] when every call is
    answered. *)
Fixpoint first_refusal (ec : client) (answered cs : list api_call)
  : option (list api_call * api_call) :=
  match cs with
  | [] => None
  | c :: cs' =>
      if ec answered c then Some ([], c)
      else prod_map (cons c) Datatypes.id <$> first_refusal ec (answered ++ [c]) cs'
  end.

(** How the loop of [lambda_handler] ends. *)
Inductive ending :=
| Returned                       (* it ran to its end *)
| IndexError_raised              (* [dates[0]] on an empty list *)
| AttributeError_raised          (* [name.startswith] with [name] being [None] *)
| Engine_raised                  (* [remove_old_backups] did not return *)
| Client_raised (before : list api_call) (c : api_call).
    (* the EC2 call [c] raised, after the calls [before] of the same visit *)

Section orchestrator.
(** The EC2 client; [datetime.date.today()], as an ordinal and through
    [strftime]; the calls made during one invocation are taken to fall on
    the same day. *)
Context (ec : client).
Context (today : Z) (strftime : string → string).
Context (all_snapshots : gmap string (list string)).

Definition backup_instance (i : instance) (name state : string) : api_call :=
  let ami_name := name +:+ "-" +:+ strftime "%m%d%y" in
  let '(prefix, sname) :=
    if String.prefix "ec2-" name || String.prefix "vpc-" name
    then (default ""%string (PREFIX_NAMES !! slice_upto 3 name), slice_from 4 name)
    else (""%string, name) in
  let desc_name :=
    match DESC_NAMES !! sname with
    | Some d => format_desc_name prefix d
    | None =>
        match get_tag i "aws:cloudformation:stack-name" with
        | None => format_desc_name prefix "Unknown"
        | Some cf_stack_name => format_desc_name prefix cf_stack_name
        end
    end in
  let ami_desc := desc_name +:+ " as of " +:+ strftime "%m/%d/%Y" in
  let noreboot := String.eqb state "running" in
  create_image (InstanceId i) ami_name ami_desc noreboot.

(** The body of [for i in instances].  The list found in [all_images] is
    sorted in place, so the dictionary is handed on with it. *)
Definition visit_instance (all_images : gmap string (list image)) (i : instance)
  : outcome :=
  let state := State i in
  let name := get_tag i "Name" in
  match get_tag i "opsworks:stack" with
  | Some _ => Ignored
  | None =>
      let found := name ≫= (λ n, all_images !! n) in
      match found with
      | Some [] => Raised_IndexError
      | _ =>
          let images := sort_by_date (default [] found) in
          let all_images' :=
            match name, found with
            | Some n, Some _ => <[n := images]> all_images
            | _, _ => all_images
            end in
          let engine :=
            BackupSet.remove_old_backups BackupSet.class_constants images today
              all_snapshots in
          if match last images with
             | Some r => (created_at r =? today)%Z
             | None => false
             end
          then Visited {| subject := name; created := None;
                          history := images; pruning := engine |}
                       all_images'
          else
            match name with
            | None => Raised_AttributeError
            | Some n =>
                Visited {| subject := name;
                           created := Some (backup_instance i n state);
                           history := images; pruning := engine |}
                        all_images'
            end
      end
  end.

(** The EC2 calls of one visit, in order: [create_image] if a backup is
    made, then what [remove_backup] does for each image the engine passes to
    it. *)
Definition visit_calls (v : visit) : list api_call :=
  option_list (created v)
  ++ match pruning v with
     | Ok l => calls l ≫= (λ c, remove_backup c.1 c.2)
     | _ => []
     end.

(** The loop over the instances: the visits carried through, and how the
    loop ended.  [answered] is what the client has answered so far.  Nothing
    that a visit decides depends on the client, so the calls of a visit are
    made in the order of [visit_calls] until one raises; the exception is
    caught nowhere and ends the loop there, the visit under way being left
    unfinished. *)
Fixpoint visit_all (answered : list api_call)
    (all_images : gmap string (list image)) (instances : list instance)
  : list visit * ending :=
  match instances with
  | [] => ([], Returned)
  | i :: instances' =>
      match visit_instance all_images i with
      | Ignored => visit_all answered all_images instances'
      | Raised_IndexError => ([], IndexError_raised)
      | Raised_AttributeError => ([], AttributeError_raised)
      | Visited v all_images' =>
          match first_refusal ec answered (visit_calls v) with
          | Some (before, c) => ([], Client_raised before c)
          | None =>
              match pruning v with
              | Ok _ =>
                  let '(vs, e) :=
                    visit_all (answered ++ visit_calls v) all_images' instances' in
                  (v :: vs, e)
              | _ => ([], Engine_raised)
              end
          end
      end
  end.

(** [lambda_handler], given what [describe_images], [get_snapshots] and
    [get_instances] returned. *)
Definition lambda_handler (response : list raw_image) (instances : list instance)
  : list visit * ending :=
  visit_all [] (get_images response) instances.
End orchestrator.

(** ** The snapshot table: [get_snapshots] *)

(** One element of [describe_snapshots(...)['Snapshots']], with the fields
    the script reads. *)
Record raw_snapshot := RawSnapshot {
  SnapshotId : string;
  Description : string
}.

(** The character class [[a-z0-9]] of the pattern: the ASCII digits and the
    ASCII lower-case letters, and no byte of a longer sequence. *)
Definition is_lower_or_digit (c : ascii) : bool :=
  ((48 <=? nat_of_ascii c)%nat && (nat_of_ascii c <=? 57)%nat)
  || ((97 <=? nat_of_ascii c)%nat && (nat_of_ascii c <=? 122)%nat).

Fixpoint all_lower_or_digit (s : string) : bool :=
  match s with
  | EmptyString => true
  | String a s' => is_lower_or_digit a && all_lower_or_digit s'
  end.

(** What follows the literal [p] at the head of [s], if [s] starts with it. *)
Fixpoint after_literal (p s : string) : option string :=
  match p, s with
  | EmptyString, _ => Some s
  | String a p', String b s' => if Ascii.eqb a b then after_literal p' s' else None
  | String _ _, EmptyString => None
  end.

(** The longest run of [[a-z0-9]] at the head of [s], and what follows it. *)
Fixpoint leading_run (s : string) : string * string :=
  match s with
  | String a s' =>
      if is_lower_or_digit a
      then let '(r, rest) := leading_run s' in (String a r, rest)
      else (EmptyString, s)
  | EmptyString => (EmptyString, EmptyString)
  end.

(** [[a-z0-9]{8,}] at the head of [s]: what it matched and what follows.
    The quantifier is greedy and, in the pattern below, what comes after it
    either starts with a character outside the class or is the end of the
    pattern, so the longest run is the one the match settles on wherever a
    match exists. *)
Definition run_of_8 (s : string) : option (string * string) :=
  let '(r, rest) := leading_run s in
  if (8 <=? String.length r)%nat then Some (r, rest) else None.

(** [SNAPSHOT_DESC_PATTERN.match(desc)]: [m.group(1)] when the pattern
    [Created by CreateImage\(i-[a-z0-9]{8,}\) for (ami-[a-z0-9]{8,}) from vol-[a-z0-9]{8,}]
    matches at the start of [desc], [None] when it does not. *)
Definition SNAPSHOT_DESC_PATTERN (desc : string) : option string :=
  rest ← after_literal "Created by CreateImage(i-" desc;
  '(_, rest) ← run_of_8 rest;
  rest ← after_literal ") for ami-" rest;
  '(ami, rest) ← run_of_8 rest;
  rest ← after_literal " from vol-" rest;
  _ ← run_of_8 rest;
  Some ("ami-" +:+ ami).

(** The body of the [for s in response] loop. *)
Definition get_snapshots_step (all_snapshots : gmap string (list string))
    (s : raw_snapshot) : gmap string (list string) :=
  let snapshot_id := SnapshotId s in
  let snapshot_desc := Description s in
  match SNAPSHOT_DESC_PATTERN snapshot_desc with
  | None => all_snapshots
  | Some ami_id =>
      let all_snapshots :=
        match all_snapshots !! ami_id with
        | None => <[ami_id := []]> all_snapshots
        | Some _ => all_snapshots
        end in
      <[ami_id := default [] (all_snapshots !! ami_id) ++ [snapshot_id]]>
        all_snapshots
  end.

Definition get_snapshots (response : list raw_snapshot) : gmap string (list string) :=
  foldl get_snapshots_step ∅ response.

(** ** The instances: [get_instances] *)

(** One element of [describe_instances(...)['Reservations']]. *)
Record reservation := Reservation { Instances : list instance }.

(** [describe_instances] is what the call returned under the key
    ['Reservations'], [None] when the key is missing. *)
Definition get_instances (describe_instances : option (list reservation))
  : list instance :=
  let reservations := default [] describe_instances in
  concat (Instances <$> reservations).

(** [lambda_handler] from what the three [describe_] calls returned. *)
Definition lambda_handler_on (ec : client) (today : Z) (strftime : string → string)
    (images : list raw_image) (snapshots : list raw_snapshot)
    (describe_instances : option (list reservation)) : list visit * ending :=
  lambda_handler ec today strftime (get_snapshots snapshots) images
    (get_instances describe_instances).

(** ** Vocabulary of the catalogue and of the orchestrator *)

(** The test of [get_images] on one image: the resource it is filed under,
    if it is filed at all. *)
Definition resource_of (i : raw_image) : option string :=
  if negb (Public i) then
    let pos := rfind "-" (Name i) in
    if (0 <? pos)%Z && isdigit (slice_from (Z.to_nat (pos + 1)) (Name i))
    then Some (slice_upto (Z.to_nat pos) (Name i))
    else None
  else None.

Definition as_image (i : raw_image) : image :=
  {| id := ImageId i; created_at := CreationDate i |}.

(** [name] is [resource], a dash not in first position, and digits (at
    least one) up to the end: the characters of the suffix are [digits], all
    of them digits in the sense of [str.isdigit]. *)
Definition stamped (name resource : string) : Prop :=
  ∃ suffix digits,
    name = resource +:+ "-" +:+ suffix
    ∧ resource ≠ ""%string
    ∧ code_points suffix = Some digits
    ∧ digits ≠ []
    ∧ Forall (λ c, unicode_digit c = true) digits.

(** A non-public image named after [resource]. *)
Definition eligible (i : raw_image) (resource : string) : Prop :=
  Public i = false ∧ stamped (Name i) resource.

(** A group of the dictionary: absent when it would be empty. *)
Definition group (l : list image) : option (list image) :=
  match l with [] => None | _ => Some l end.

(** The dictionary still holds, group by group and up to their order, what
    [get_images] read from the listing. *)
Definition as_read (response : list raw_image) (m : gmap string (list image)) : Prop :=
  ∀ g, sort_by_date (default [] (m !! g))
       = sort_by_date (default [] (get_images response !! g)).

(** The engine was handed a backup made today. *)
Definition sees_backup_of_today (today : Z) (v : visit) : Prop :=
  ∃ x, x ∈ history v ∧ created_at x = today.

(** ** Vocabulary of the engine, continued *)

(** The entry [e] of a record is about the image [x]. *)
Definition about (snaps : gmap string (list string)) (x : image) (e : event) : Prop :=
  e = keeping_of x ∨ e = removing_of snaps x.

(** The entries of a record are about the first images of the group, in
    order: this is what [removed] and [survivors] rely on. *)
Definition aligned (snaps : gmap string (list string))
    (l : list image) (log : list event) : Prop :=
  Forall2 (about snaps) (take (length log) l) log.

(** The arguments [_remove_and_inc] passes to the callback for [x]. *)
Definition call_of (snaps : gmap string (list string)) (x : image) : string * list string :=
  (id x, default [] (snaps !! id x)).


(** The same image seen from day 0. *)
Definition seen_from_day_0 (today : Z) (x : image) : image :=
  {| id := id x; created_at := - age today x |}.

(** What a loop that started within the group, with budget to reach its end,
    may have done: stopped further on within the group, or raised. *)
Definition progressed {A} (images : list image) (s : BackupSet.cursor)
    (r : result (A * BackupSet.cursor)) : Prop :=
  match r with
  | Ok (_, s') =>
      (BackupSet.backup_num s ≤ BackupSet.backup_num s' ≤ length images)%nat
  | IndexError => True
  | OutOfFuel => False
  end.

(** ** A sample invocation *)

(** A run on 3 November 2026 (ordinal 739923): one running instance named
    [web], whose two earlier backups are in the listing. *)
Definition strftime_2026_11_03 (format : string) : string :=
  if String.eqb format "%m%d%y" then "110326" else "11/03/2026".

Definition listing_web : list raw_image :=
  [ {| Public := false; Name := "web-110126"; ImageId := "ami-0aaaaaaa";
       CreationDate := 739921 |};
    {| Public := false; Name := "web-110226"; ImageId := "ami-0bbbbbbb";
       CreationDate := 739922 |} ].

Definition instance_web : instance :=
  {| InstanceId := "i-0123456789"; Tags := [("Name", "web")]%string;
     State := "running" |}.

Definition visit_web : visit :=
  {| subject := Some "web"%string;
     created := Some (create_image "i-0123456789" "web-110326"
                        "Unknown as of 11/03/2026" true);
     history := [ {| id := "ami-0aaaaaaa"; created_at := 739921 |};
                  {| id := "ami-0bbbbbbb"; created_at := 739922 |} ];
     pruning := Ok [] |}.

(** ** Vocabulary of the further properties *)

(** The description names the image [ami_id] the way the pattern wants it:
    the three literals, each followed by at least 8 characters of
    [[a-z0-9]], and anything after. *)
Definition names_image (desc ami_id : string) : Prop :=
  ∃ r1 r2 r3 tail,
    desc = "Created by CreateImage(i-" +:+ r1 +:+ ") for ami-" +:+ r2
           +:+ " from vol-" +:+ r3 +:+ tail
    ∧ all_lower_or_digit r1 = true ∧ (8 ≤ String.length r1)%nat
    ∧ all_lower_or_digit r2 = true ∧ (8 ≤ String.length r2)%nat
    ∧ all_lower_or_digit r3 = true ∧ (8 ≤ String.length r3)%nat
    ∧ ami_id = "ami-" +:+ r2.

(** No group of the dictionary is empty. *)
Definition no_empty_group (m : gmap string (list image)) : Prop :=
  ∀ g, m !! g ≠ Some [].

(** The instance can be processed: it is an OpsWorks one, or it has a name. *)
Definition ignored_or_named (i : instance) : Prop :=
  get_tag i "opsworks:stack" = None → is_Some (get_tag i "Name").

(** The same image, had it been created [d] days later. *)
Definition postponed (d : Z) (x : image) : image :=
  {| id := id x; created_at := created_at x + d |}.

(** A second run the same day: [web] has seven backups, the oldest aged 400
    days, and two snapshots are listed for that oldest backup, with one
    snapshot whose description says nothing of an image. *)
Definition listing_web_7 : list raw_image :=
  [ RawImage false "web-092925" "ami-0000000a" 739523;
    RawImage false "web-102426" "ami-0000000b" 739913;
    RawImage false "web-102526" "ami-0000000c" 739914;
    RawImage false "web-102926" "ami-0000000d" 739918;
    RawImage false "web-103126" "ami-0000000e" 739920;
    RawImage false "web-110126" "ami-0000000f" 739921;
    RawImage false "web-110226" "ami-0000000g" 739922 ].

Definition snapshots_web_7 : list raw_snapshot :=
  [ RawSnapshot "snap-00000001"
      "Created by CreateImage(i-0123456789) for ami-0000000a from vol-000000aa";
    RawSnapshot "snap-00000002" "copied by hand";
    RawSnapshot "snap-00000003"
      "Created by CreateImage(i-0123456789) for ami-0000000a from vol-000000bb";
    RawSnapshot "snap-00000004"
      "Created by CreateImage(i-0123456789) for ami-0000000f from vol-000000aa" ].

Definition visit_web_7 : visit :=
  default visit_web
    (head (lambda_handler_on obliging 739923 strftime_2026_11_03 listing_web_7
             snapshots_web_7 (Some [Reservation [instance_web]])).1).

(** ** Where the cursor stands *)

(** The cursor [s] has the images [l] from itself on, and
    [backup_days_ago] is the age of the first of them. *)
Definition positioned (images : list image) (today : Z)
    (s : BackupSet.cursor) (l : list image) : Prop :=
  drop (BackupSet.backup_num s) images = l
  ∧ match l with
    | x :: _ => BackupSet.backup_days_ago s = age today x
    | [] => True
    end.

(** * The method computes the plan *)

Section refinement.
Context (C : BackupSet.constants) (images : list image) (today : Z).
Context (snaps : gmap string (list string)).

Local Abbreviation positioned := (positioned images today).
Local Abbreviation keep_and_inc := (BackupSet._keep_and_inc images today).
Local Abbreviation remove_and_inc := (BackupSet._remove_and_inc images today snaps).

Lemma positioned_lookup s x l :
  positioned s (x :: l) →
  images !! BackupSet.backup_num s = Some x
  ∧ (BackupSet.backup_num s < length images)%nat
  ∧ drop (S (BackupSet.backup_num s)) images = l.
Proof.
  intros [Hd _].
  assert (Hx : images !! BackupSet.backup_num s = Some x).
  { rewrite <- (Nat.add_0_r (BackupSet.backup_num s)), <- lookup_drop, Hd. done. }
  split; [done|]. split; [by eapply lookup_lt_Some|].
  replace (S (BackupSet.backup_num s)) with (BackupSet.backup_num s + 1)%nat by lia.
  rewrite <- drop_drop, Hd. done.
Qed.

Lemma lookup_head_drop (n : nat) : images !! n = head (drop n images).
Proof. by rewrite head_lookup, lookup_drop, Nat.add_0_r. Qed.

(** One advance of the cursor from a position with images ahead. *)
Lemma inc_step s x l e :
  positioned s (x :: l) →
  ∃ s', BackupSet._inc_backup_num images today
          {| BackupSet.backup_num := BackupSet.backup_num s;
             BackupSet.backup_days_ago := BackupSet.backup_days_ago s;
             BackupSet.log := BackupSet.log s ++ [e] |}
        = Ok (bool_decide (l = []), s')
      ∧ positioned s' l
      ∧ BackupSet.log s' = BackupSet.log s ++ [e].
Proof.
  intros Hp. destruct (positioned_lookup _ _ _ Hp) as (Hx & Hlt & Hd).
  unfold BackupSet._inc_backup_num, BackupSet.bind, BackupSet._update_days_ago,
    BackupSet.ret; simpl.
  rewrite lookup_head_drop, Hd.
  destruct (S (BackupSet.backup_num s) <? length images)%nat eqn:Hlen.
  - apply Nat.ltb_lt in Hlen.
    destruct l as [|y l'].
    { apply (f_equal length) in Hd. rewrite length_drop in Hd. simpl in Hd. lia. }
    simpl. eexists. split; [reflexivity|]. split; [|done].
    split; simpl; [done|reflexivity].
  - apply Nat.ltb_ge in Hlen.
    assert (l = []) as ->.
    { rewrite <- Hd. by apply drop_ge. }
    eexists. split; [reflexivity|]. split; [|done].
    split; simpl; [by apply drop_ge|done].
Qed.

Lemma keep_step s x l :
  positioned s (x :: l) →
  ∃ s', keep_and_inc s = Ok (bool_decide (l = []), s')
      ∧ positioned s' l
      ∧ BackupSet.log s' = BackupSet.log s ++ [keeping_of x].
Proof.
  intros Hp. destruct (positioned_lookup _ _ _ Hp) as (Hx & _ & _).
  unfold BackupSet._keep_and_inc, BackupSet.bind, BackupSet.subscript,
    BackupSet.emit. rewrite Hx. by eapply inc_step.
Qed.

Lemma remove_step s x l :
  positioned s (x :: l) →
  ∃ s', remove_and_inc s = Ok (bool_decide (l = []), s')
      ∧ positioned s' l
      ∧ BackupSet.log s' = BackupSet.log s ++ [removing_of snaps x].
Proof.
  intros Hp. destruct (positioned_lookup _ _ _ Hp) as (Hx & _ & _).
  unfold BackupSet._remove_and_inc, BackupSet.bind, BackupSet.subscript,
    BackupSet.emit. rewrite Hx. by eapply inc_step.
Qed.

Lemma positioned_remaining s l :
  positioned s l → l ≠ [] →
  (Z.of_nat (length images) - Z.of_nat (BackupSet.backup_num s))%Z
  = Z.of_nat (length l).
Proof.
  intros Hp Hne. destruct l as [|x l]; [done|].
  destruct (positioned_lookup _ _ _ Hp) as (_ & Hlt & _).
  destruct Hp as [Hd _]. rewrite <- Hd, length_drop. lia.
Qed.

Lemma thin_nil ns : thin today snaps ns [] = [].
Proof. by destruct ns. Qed.

(** The skipping loop keeps the leading run of images older than
    [2 ^ MAX_ORDER]. *)
Lemma skip_older_spec U l : ∀ s fuel,
  positioned s l → l ≠ [] → (length l ≤ fuel)%nat →
  ∃ s', BackupSet.skip_older images today U fuel s
        = Ok (bool_decide (drop (count_older today U l) l = []), s')
      ∧ positioned s' (drop (count_older today U l) l)
      ∧ BackupSet.log s'
        = BackupSet.log s ++ (keeping_of <$> take (count_older today U l) l).
Proof.
  induction l as [|x l IH]; intros s fuel Hp Hne Hfuel; [done|].
  pose proof Hp as [_ Hage]. simpl in Hage.
  destruct fuel as [|fuel]; [simpl in Hfuel; lia|].
  simpl. rewrite Hage.
  destruct (U <? age today x)%Z.
  - destruct (keep_step _ _ _ Hp) as (s1 & Hk & Hp1 & Hl1).
    unfold BackupSet.bind. rewrite Hk.
    destruct l as [|y l].
    + simpl. eexists. split; [reflexivity|]. split; [done|].
      by rewrite Hl1.
    + rewrite bool_decide_eq_false_2 by done.
      destruct (IH s1 fuel Hp1) as (s2 & Hs & Hp2 & Hl2);
        [done|simpl in *; lia|].
      exists s2. split; [done|]. split; [done|].
      rewrite Hl2, Hl1, <- app_assoc. done.
  - exists s. rewrite bool_decide_eq_false_2 by done.
    split; [done|]. split; [done|]. simpl. by rewrite app_nil_r.
Qed.

(** The inner loop of a bucket removes the leading run of images older than
    the bucket's lower bound. *)
Lemma remove_others_spec L l : ∀ s fuel,
  positioned s l → l ≠ [] → (length l ≤ fuel)%nat →
  ∃ s', BackupSet.remove_others images today snaps L fuel s
        = Ok (bool_decide (drop (count_older today L l) l = []), s')
      ∧ positioned s' (drop (count_older today L l) l)
      ∧ BackupSet.log s'
        = BackupSet.log s ++ (removing_of snaps <$> take (count_older today L l) l).
Proof.
  induction l as [|x l IH]; intros s fuel Hp Hne Hfuel; [done|].
  pose proof Hp as [_ Hage]. simpl in Hage.
  destruct fuel as [|fuel]; [simpl in Hfuel; lia|].
  simpl. rewrite Hage.
  destruct (L <? age today x)%Z.
  - destruct (remove_step _ _ _ Hp) as (s1 & Hk & Hp1 & Hl1).
    unfold BackupSet.bind. rewrite Hk.
    destruct l as [|y l].
    + simpl. eexists. split; [reflexivity|]. split; [done|].
      by rewrite Hl1.
    + rewrite bool_decide_eq_false_2 by done.
      destruct (IH s1 fuel Hp1) as (s2 & Hs & Hp2 & Hl2);
        [done|simpl in *; lia|].
      exists s2. split; [done|]. split; [done|].
      rewrite Hl2, Hl1, <- app_assoc. done.
  - exists s. rewrite bool_decide_eq_false_2 by done.
    split; [done|]. split; [done|]. simpl. by rewrite app_nil_r.
Qed.

(** The absolute-age loop removes the first [expired] images and stops with
    images still ahead, as [MAX_ORDER] is at least 2. *)
Lemma remove_really_old_spec l : ∀ s fuel,
  (2 ≤ BackupSet.MAX_ORDER C)%Z →
  positioned s l → l ≠ [] → (length l ≤ fuel)%nat →
  ∃ s', BackupSet.remove_really_old C images today snaps fuel s = Ok (tt, s')
      ∧ positioned s' (drop (expired C today l) l)
      ∧ drop (expired C today l) l ≠ []
      ∧ BackupSet.log s'
        = BackupSet.log s ++ (removing_of snaps <$> take (expired C today l) l).
Proof.
  induction l as [|x l IH]; intros s fuel HC Hp Hne Hfuel; [done|].
  pose proof Hp as [_ Hage]. simpl in Hage.
  destruct fuel as [|fuel]; [simpl in Hfuel; lia|].
  cbn [BackupSet.remove_really_old expired].
  rewrite Hage, (positioned_remaining _ _ Hp Hne).
  destruct ((BackupSet.DAYS_TO_KEEP_BACKUPS C <? age today x)%Z
            && (BackupSet.MAX_ORDER C <=? Z.of_nat (length (x :: l)))%Z) eqn:Hc.
  - apply andb_true_iff in Hc as [_ Hc]. apply Z.leb_le in Hc.
    destruct (remove_step _ _ _ Hp) as (s1 & Hk & Hp1 & Hl1).
    unfold BackupSet.bind. rewrite Hk.
    assert (l ≠ []) by (intros ->; simpl in Hc; lia).
    destruct (IH s1 fuel HC Hp1) as (s2 & Hs & Hp2 & Hn2 & Hl2);
      [done|simpl in *; lia|].
    exists s2. split; [done|]. split; [done|]. split; [done|].
    rewrite Hl2, Hl1, <- app_assoc. done.
  - exists s. split; [done|]. split; [done|]. split; [done|].
    simpl. by rewrite app_nil_r.
Qed.

(** The bucket loop records [thin]. *)
Lemma for_n_spec ns : ∀ l s fuel,
  positioned s l → l ≠ [] → (length l ≤ fuel)%nat →
  ∃ s', BackupSet.for_n images today snaps ns fuel s = Ok (tt, s')
      ∧ BackupSet.log s' = BackupSet.log s ++ thin today snaps ns l.
Proof.
  induction ns as [|n ns IH]; intros l s fuel Hp Hne Hfuel.
  { exists s. split; [done|]. destruct l; simpl; by rewrite app_nil_r. }
  destruct l as [|x l]; [done|].
  pose proof Hp as [_ Hage]. simpl in Hage.
  cbn [BackupSet.for_n thin]. cbv zeta. rewrite Hage.
  destruct (2 ^ (n - 1) <? age today x)%Z.
  - destruct (keep_step _ _ _ Hp) as (s1 & Hk & Hp1 & Hl1).
    unfold BackupSet.bind at 1. rewrite Hk.
    destruct l as [|y l].
    { simpl. eexists. split; [reflexivity|]. by rewrite Hl1, thin_nil. }
    rewrite bool_decide_eq_false_2 by done.
    destruct (remove_others_spec (2 ^ (n - 1)) (y :: l) s1 fuel Hp1)
      as (s2 & Hr & Hp2 & Hl2); [done|simpl in *; lia|].
    unfold BackupSet.bind. rewrite Hr.
    set (k := count_older today (2 ^ (n - 1)) (y :: l)) in *.
    destruct (decide (drop k (y :: l) = [])) as [He|He].
    + rewrite bool_decide_eq_true_2 by done.
      exists s2. split; [done|].
      rewrite Hl2, Hl1, He, thin_nil, app_nil_r, <- app_assoc. done.
    + rewrite bool_decide_eq_false_2 by done.
      destruct (IH (drop k (y :: l)) s2 fuel Hp2 He) as (s3 & Hf & Hl3).
      { rewrite length_drop. simpl in *. lia. }
      exists s3. split; [done|].
      rewrite Hl3, Hl2, Hl1, <- !app_assoc. done.
  - by apply IH.
Qed.

(** With [MAX_ORDER] at least 2, [remove_old_backups] raises nothing, stays
    within its iteration budget and records exactly [plan]. *)
Lemma plan_refines :
  (2 ≤ BackupSet.MAX_ORDER C)%Z →
  BackupSet.remove_old_backups C images today snaps
  = Ok (plan C today snaps images).
Proof.
  intros HC. unfold BackupSet.remove_old_backups, plan.
  destruct (Z.of_nat (length images) <? BackupSet.MAX_ORDER C)%Z eqn:Hlen; [done|].
  apply Z.ltb_ge in Hlen.
  destruct images as [|x l] eqn:Himg; [simpl in Hlen; lia|]. rewrite <- Himg in *.
  set (s0 := {| BackupSet.backup_num := 0;
                BackupSet.backup_days_ago := age today x;
                BackupSet.log := [] |}).
  assert (Hp0 : positioned s0 images) by (rewrite Himg; split; done).
  assert (Hne : images ≠ []) by (by rewrite Himg).
  unfold BackupSet.bind at 1.
  replace (BackupSet._update_days_ago images today BackupSet.init)
    with (Ok (tt, s0)) by (unfold BackupSet._update_days_ago; by rewrite Himg).
  destruct (remove_really_old_spec images s0 (S (length images)) HC Hp0 Hne)
    as (s1 & H1 & Hp1 & Hn1 & Hl1); [lia|].
  unfold BackupSet.bind at 1. rewrite H1.
  set (l1 := drop (expired C today images) images) in *.
  destruct (skip_older_spec (2 ^ BackupSet.MAX_ORDER C) l1 s1 (S (length images)) Hp1 Hn1)
    as (s2 & H2 & Hp2 & Hl2).
  { unfold l1. rewrite length_drop. lia. }
  unfold BackupSet.bind. rewrite H2.
  set (k := count_older today (2 ^ BackupSet.MAX_ORDER C) l1) in *.
  destruct (decide (drop k l1 = [])) as [He|He].
  - rewrite bool_decide_eq_true_2 by done. simpl.
    by rewrite Hl2, Hl1, He, thin_nil, app_nil_r.
  - rewrite bool_decide_eq_false_2 by done.
    destruct (for_n_spec (BackupSet.range_down (BackupSet.MAX_ORDER C) 1)
                (drop k l1) s2 (S (length images)) Hp2 He) as (s3 & H3 & Hl3).
    { unfold l1. rewrite !length_drop. lia. }
    rewrite H3, Hl3, Hl2, Hl1. simpl. by rewrite <- app_assoc.
Qed.
End refinement.

(** * Reading the plan *)

Section reading.
Context (today : Z) (snaps : gmap string (list string)).

Local Abbreviation keep := keeping_of.
Local Abbreviation remove := (removing_of snaps).

Lemma survivors_app l1 l2 log1 log2 :
  length log1 = length l1 →
  survivors (l1 ++ l2) (log1 ++ log2) = survivors l1 log1 ++ survivors l2 log2.
Proof.
  revert log1. induction l1 as [|x l1 IH]; intros [|e log1] Hlen; try done.
  simpl in *. destruct (is_removing e); simpl; rewrite IH by lia; done.
Qed.

Lemma removed_app l1 l2 log1 log2 :
  length log1 = length l1 →
  removed (l1 ++ l2) (log1 ++ log2) = removed l1 log1 ++ removed l2 log2.
Proof.
  revert log1. induction l1 as [|x l1 IH]; intros [|e log1] Hlen; try done.
  simpl in *. destruct (is_removing e); simpl; rewrite IH by lia; done.
Qed.

Lemma calls_app log1 log2 : calls (log1 ++ log2) = calls log1 ++ calls log2.
Proof.
  induction log1 as [|[?|? ?] log1 IH]; simpl; [done|done|by rewrite IH].
Qed.

Lemma survivors_keep l : survivors l (keep <$> l) = l.
Proof. induction l; simpl; [done|by f_equal]. Qed.

Lemma survivors_remove l : survivors l (remove <$> l) = [].
Proof. induction l; simpl; done. Qed.

Lemma removed_keep l : removed l (keep <$> l) = [].
Proof. induction l; simpl; done. Qed.

Lemma removed_remove l : removed l (remove <$> l) = l.
Proof. induction l; simpl; [done|by f_equal]. Qed.

Lemma calls_keep l : calls (keep <$> l) = [].
Proof. induction l; simpl; done. Qed.

Lemma calls_remove l : calls (remove <$> l) = call_of snaps <$> l.
Proof. induction l; simpl; [done|by f_equal]. Qed.

Lemma survivors_nil_r l : survivors l [] = l.
Proof. by destruct l. Qed.

Lemma removed_nil_r l : removed l [] = [].
Proof. by destruct l. Qed.

(** A record never removes more than it was given. *)
Lemma removed_sublist l log : removed l log `sublist_of` l.
Proof.
  revert log. induction l as [|x l IH]; intros [|e log]; simpl;
    try (apply sublist_nil_l).
  destruct (is_removing e); [by apply sublist_skip|by apply sublist_cons].
Qed.

(** The leading run counted by [count_older] is older than the bound, and
    the image after it is not. *)
Lemma count_older_take L l :
  Forall (λ x, (L < age today x)%Z) (take (count_older today L l) l).
Proof.
  induction l as [|x l IH]; simpl; [done|].
  destruct (L <? age today x)%Z eqn:Hx; simpl; [|done].
  constructor; [by apply Z.ltb_lt|done].
Qed.

Lemma count_older_drop L l x l' :
  drop (count_older today L l) l = x :: l' → (age today x ≤ L)%Z.
Proof.
  induction l as [|y l IH]; simpl; [done|].
  destruct (L <? age today y)%Z eqn:Hy; simpl; [done|].
  intros [= -> _]. by apply Z.ltb_ge.
Qed.

Lemma count_older_none L l :
  (∀ x, head l = Some x → (age today x ≤ L)%Z) → count_older today L l = 0%nat.
Proof.
  destruct l as [|y l]; simpl; [done|]. intros H.
  specialize (H y eq_refl). destruct (L <? age today y)%Z eqn:Hy; [|done].
  apply Z.ltb_lt in Hy. lia.
Qed.

Lemma count_older_all L l1 l2 :
  Forall (λ x, (L < age today x)%Z) l1 →
  (∀ x, head l2 = Some x → (age today x ≤ L)%Z) →
  count_older today L (l1 ++ l2) = length l1.
Proof.
  intros H1 H2. induction H1 as [|x l1 Hx _ IH]; simpl.
  - by apply count_older_none.
  - rewrite (proj2 (Z.ltb_lt _ _) Hx). by rewrite IH.
Qed.

(** The bucket loop never removes the image it starts on. *)
Lemma head_thinned ns l : head (thinned today ns l) = head l.
Proof.
  revert l. induction ns as [|n ns IH]; intros [|x l]; simpl; try done.
  destruct (2 ^ (n - 1) <? age today x)%Z; [done|]. by rewrite IH.
Qed.

Lemma thin_length ns l : (length (thin today snaps ns l) ≤ length l)%nat.
Proof.
  revert l. induction ns as [|n ns IH]; intros [|x l]; try (simpl; lia).
  cbn [thin].
  destruct (2 ^ (n - 1) <? age today x)%Z; [|apply IH].
  simpl. rewrite length_app, length_fmap, length_take.
  specialize (IH (drop (count_older today (2 ^ (n - 1)) l) l)).
  rewrite length_drop in IH. lia.
Qed.

Lemma survivors_thin ns l :
  survivors l (thin today snaps ns l) = thinned today ns l.
Proof.
  revert l. induction ns as [|n ns IH]; intros [|x l]; try done.
  cbn [thin thinned].
  destruct (2 ^ (n - 1) <? age today x)%Z; [|apply IH].
  simpl. f_equal.
  set (k := count_older today (2 ^ (n - 1)) l).
  rewrite <- (take_drop k l) at 1.
  rewrite survivors_app, survivors_remove, IH; [done|].
  by rewrite length_fmap.
Qed.

Lemma thinned_sublist ns l : thinned today ns l `sublist_of` l.
Proof.
  revert l. induction ns as [|n ns IH]; intros [|x l]; try done.
  cbn [thinned]. destruct (2 ^ (n - 1) <? age today x)%Z; [|apply IH].
  apply sublist_skip. etrans; [apply IH|apply sublist_drop].
Qed.

Lemma calls_thin ns l :
  calls (thin today snaps ns l) = call_of snaps <$> removed l (thin today snaps ns l).
Proof.
  revert l. induction ns as [|n ns IH]; intros [|x l]; try done.
  cbn [thin].
  destruct (2 ^ (n - 1) <? age today x)%Z; [|apply IH].
  simpl.
  set (k := count_older today (2 ^ (n - 1)) l).
  rewrite <- (take_drop k l) at 3.
  rewrite removed_app, removed_remove, calls_app, calls_remove, IH, fmap_app;
    [done|by rewrite length_fmap].
Qed.

(** Every image the bucket loop removes is older than the smallest lower
    bound among its buckets. *)
Lemma removed_thin_older B ns l :
  Forall (λ n, (B ≤ 2 ^ (n - 1))%Z) ns →
  Forall (λ x, (B < age today x)%Z) (removed l (thin today snaps ns l)).
Proof.
  intros Hns. revert l. induction Hns as [|n ns Hn _ IH]; intros [|x l];
    try (simpl; done).
  cbn [thin].
  destruct (2 ^ (n - 1) <? age today x)%Z; [|apply IH].
  simpl.
  set (k := count_older today (2 ^ (n - 1)) l).
  rewrite <- (take_drop k l) at 1.
  rewrite removed_app, removed_remove by (by rewrite length_fmap).
  apply Forall_app. split; [|apply IH].
  eapply Forall_impl; [apply count_older_take|]. simpl. intros; lia.
Qed.

Lemma range_down_cons start stop :
  (stop < start)%Z →
  BackupSet.range_down start stop = start :: BackupSet.range_down (start - 1) stop.
Proof.
  intros H. unfold BackupSet.range_down.
  replace (Z.to_nat (start - stop)) with (S (Z.to_nat (start - 1 - stop))) by lia.
  simpl. f_equal; [lia|].
  rewrite <- fmap_S_seq, <- list_fmap_compose.
  apply list_fmap_ext. intros _ k _. simpl. lia.
Qed.

Lemma elem_of_range_down n start stop :
  n ∈ BackupSet.range_down start stop ↔ (stop < n ≤ start)%Z.
Proof.
  unfold BackupSet.range_down. rewrite list_elem_of_fmap. split.
  - intros (k & -> & Hk). apply elem_of_seq in Hk. lia.
  - intros H. exists (Z.to_nat (start - n)). split; [lia|].
    apply elem_of_seq. lia.
Qed.

Section with_constants.
Context (C : BackupSet.constants).

Local Abbreviation MAX := (BackupSet.MAX_ORDER C).
Local Abbreviation DAYS := (BackupSet.DAYS_TO_KEEP_BACKUPS C).

Lemma expired_take l :
  Forall (λ x, (DAYS < age today x)%Z) (take (expired C today l) l).
Proof.
  induction l as [|x l IH]; [done|]. cbn [expired].
  destruct (_ && _) eqn:Hc; simpl; [|done].
  apply andb_true_iff in Hc as [Hc _]. constructor; [by apply Z.ltb_lt|done].
Qed.

(** The absolute-age loop stops on an image within [DAYS_TO_KEEP_BACKUPS],
    or with fewer than [MAX_ORDER] images ahead. *)
Lemma expired_stop l x l' :
  drop (expired C today l) l = x :: l' →
  (age today x ≤ DAYS)%Z ∨ (Z.of_nat (length (x :: l')) < MAX)%Z.
Proof.
  induction l as [|y l IH]; [done|]. cbn [expired].
  destruct (_ && _) eqn:Hc; [done|].
  cbn [drop]. intros [= -> ->].
  apply andb_false_iff in Hc as [Hc|Hc]; [left; by apply Z.ltb_ge|right].
  by apply Z.leb_gt.
Qed.

Lemma expired_none l :
  (∀ x, head l = Some x →
        (age today x ≤ DAYS)%Z ∨ (Z.of_nat (length l) < MAX)%Z) →
  expired C today l = 0%nat.
Proof.
  destruct l as [|y l]; [done|]. intros H. specialize (H y eq_refl).
  cbn [expired]. destruct (_ && _) eqn:Hc; [|done].
  apply andb_true_iff in Hc as [H1 H2].
  apply Z.ltb_lt in H1. apply Z.leb_le in H2. lia.
Qed.

Lemma survivors_plan l :
  survivors l (plan C today snaps l)
  = if (Z.of_nat (length l) <? MAX)%Z then l
    else
      let l1 := drop (expired C today l) l in
      let k := count_older today (2 ^ MAX) l1 in
      take k l1 ++ thinned today (BackupSet.range_down MAX 1) (drop k l1).
Proof.
  unfold plan. destruct (_ <? _)%Z; [apply survivors_nil_r|]. cbv zeta.
  set (l1 := drop (expired C today l) l).
  set (k := count_older today (2 ^ MAX) l1).
  rewrite <- (take_drop (expired C today l) l) at 1. fold l1.
  rewrite survivors_app, survivors_remove by (by rewrite length_fmap).
  rewrite <- (take_drop k l1) at 1.
  rewrite survivors_app, survivors_keep, survivors_thin by (by rewrite length_fmap).
  done.
Qed.

Lemma removed_plan l :
  removed l (plan C today snaps l)
  = if (Z.of_nat (length l) <? MAX)%Z then []
    else
      let l1 := drop (expired C today l) l in
      let k := count_older today (2 ^ MAX) l1 in
      take (expired C today l) l
      ++ removed (drop k l1)
           (thin today snaps (BackupSet.range_down MAX 1) (drop k l1)).
Proof.
  unfold plan. destruct (_ <? _)%Z; [apply removed_nil_r|]. cbv zeta.
  set (l1 := drop (expired C today l) l).
  set (k := count_older today (2 ^ MAX) l1).
  rewrite <- (take_drop (expired C today l) l) at 1. fold l1.
  rewrite removed_app, removed_remove by (by rewrite length_fmap).
  rewrite <- (take_drop k l1) at 1.
  rewrite removed_app, removed_keep by (by rewrite length_fmap).
  done.
Qed.

Lemma aligned_app l1 l2 log1 log2 :
  Forall2 (about snaps) l1 log1 →
  aligned snaps l2 log2 →
  aligned snaps (l1 ++ l2) (log1 ++ log2).
Proof.
  intros H1 H2. unfold aligned in *.
  pose proof (Forall2_length _ _ _ H1) as Hlen.
  rewrite length_app, <- Hlen, take_app_add. by apply Forall2_app.
Qed.

Lemma about_keep l : Forall2 (about snaps) l (keep <$> l).
Proof. induction l; constructor; [by left|done]. Qed.

Lemma about_remove l : Forall2 (about snaps) l (remove <$> l).
Proof. induction l; constructor; [by right|done]. Qed.

Lemma thin_aligned ns : ∀ l, aligned snaps l (thin today snaps ns l).
Proof.
  induction ns as [|n ns IH]; intros [|x l]; try (by constructor).
  cbn [thin]. destruct (2 ^ (n - 1) <? age today x)%Z; [|apply IH].
  cbv zeta. set (k := count_older today (2 ^ (n - 1)) l).
  rewrite <- (take_drop k l) at 1.
  apply (aligned_app [x] _ [keep x]); [constructor; [by left|constructor]|].
  apply aligned_app; [apply about_remove|apply IH].
Qed.

(** The record of the run is about the images of the group, one entry per
    image the cursor passed, in order. *)
Lemma plan_aligned l : aligned snaps l (plan C today snaps l).
Proof.
  unfold plan. destruct (_ <? _)%Z; [constructor|]. cbv zeta.
  set (l1 := drop (expired C today l) l).
  set (k := count_older today (2 ^ MAX) l1).
  rewrite <- (take_drop (expired C today l) l) at 1. fold l1.
  apply aligned_app; [apply about_remove|].
  rewrite <- (take_drop k l1) at 1.
  apply aligned_app; [apply about_keep|apply thin_aligned].
Qed.

(** The callback is called on the removed images, in their order. *)
Lemma calls_plan l :
  calls (plan C today snaps l) = call_of snaps <$> removed l (plan C today snaps l).
Proof.
  rewrite removed_plan. unfold plan. destruct (_ <? _)%Z; [done|]. cbv zeta.
  by rewrite !calls_app, calls_remove, calls_keep, calls_thin, fmap_app.
Qed.
End with_constants.
End reading.

(** * Sorted groups and buckets *)

Section sorted.
Context (today : Z).

Lemma sublist_Forall {A} (P : A → Prop) (l1 l2 : list A) :
  l1 `sublist_of` l2 → Forall P l2 → Forall P l1.
Proof.
  intros Hs%sublist_subseteq. rewrite !Forall_forall. intros H x Hx.
  apply H, Hs, Hx.
Qed.

Lemma sublist_StronglySorted {A} (R : relation A) (l1 l2 : list A) :
  l1 `sublist_of` l2 → StronglySorted R l2 → StronglySorted R l1.
Proof.
  induction 1 as [|x l1 l2 Hs IH|x l1 l2 Hs IH]; intros HS.
  - constructor.
  - apply StronglySorted_cons in HS as [HF HS]. apply StronglySorted_cons.
    split; [by eapply sublist_Forall|auto].
  - apply StronglySorted_cons in HS as [_ HS]. auto.
Qed.

Lemma StronglySorted_weaken {A} (R1 R2 : relation A) (l : list A) :
  (∀ a b, R1 a b → R2 a b) → StronglySorted R1 l → StronglySorted R2 l.
Proof.
  intros HR. induction 1 as [|x l _ IH HF]; constructor; [done|].
  eapply Forall_impl; [exact HF|]. auto.
Qed.

(** Oldest first: ages never increase along the group. *)
Lemma ascending_ages l :
  ascending l → StronglySorted (λ a b, (age today b ≤ age today a)%Z) l.
Proof. apply StronglySorted_weaken. unfold age. intros; lia. Qed.

Lemma strictly_ascending_ages l :
  strictly_ascending l → StronglySorted (λ a b, (age today b < age today a)%Z) l.
Proof. apply StronglySorted_weaken. unfold age. intros; lia. Qed.

Lemma ascending_head_oldest x l :
  ascending (x :: l) → Forall (λ y, (age today y ≤ age today x)%Z) l.
Proof.
  intros H%ascending_ages. by apply StronglySorted_cons in H as [H _].
Qed.

Lemma ascending_tail x l : ascending (x :: l) → ascending l.
Proof. intros H. by apply StronglySorted_cons in H as [_ H]. Qed.

Lemma ascending_drop k l : ascending l → ascending (drop k l).
Proof. apply sublist_StronglySorted, sublist_drop. Qed.

(** In a sorted group nothing after the leading run is older than the
    bound. *)
Lemma count_older_rest L l :
  ascending l →
  Forall (λ x, (age today x ≤ L)%Z) (drop (count_older today L l) l).
Proof.
  induction l as [|x l IH]; simpl; [constructor|]. intros HS.
  destruct (L <? age today x)%Z eqn:Hx; simpl.
  - eauto using ascending_tail.
  - apply Z.ltb_ge in Hx. constructor; [done|].
    eapply Forall_impl; [by apply ascending_head_oldest|].
    simpl. intros; lia.
Qed.

Lemma filter_none {A} (P : A → Prop) `{∀ x, Decision (P x)} (l : list A) :
  Forall (λ x, ¬ P x) l → filter P l = [].
Proof.
  induction 1 as [|x l Hx _ IH]; [done|]. by rewrite filter_cons_False.
Qed.

Lemma pow2_mono (a b : Z) : (a ≤ b)%Z → (2 ^ a ≤ 2 ^ b)%Z.
Proof. intros. apply Z.pow_le_mono_r; lia. Qed.

Lemma bucket_none_old n l :
  Forall (λ x, (2 ^ n < age today x)%Z) l → filter (in_bucket today n) l = [].
Proof.
  intros H. apply filter_none. eapply Forall_impl; [exact H|].
  unfold in_bucket. simpl. intros; lia.
Qed.

Lemma bucket_none_young n l :
  Forall (λ x, (age today x ≤ 2 ^ (n - 1))%Z) l →
  filter (in_bucket today n) l = [].
Proof.
  intros H. apply filter_none. eapply Forall_impl; [exact H|].
  unfold in_bucket. simpl. intros; lia.
Qed.

(** On a sorted group no older than [2 ^ m], the bucket loop leaves, in
    every bucket, exactly the first image the bucket had. *)
Lemma thinned_buckets (j : nat) : ∀ m l n,
  m = (Z.of_nat j + 1)%Z →
  ascending l →
  Forall (λ x, (age today x ≤ 2 ^ m)%Z) l →
  (2 ≤ n ≤ m)%Z →
  filter (in_bucket today n) (thinned today (BackupSet.range_down m 1) l)
  = take 1 (filter (in_bucket today n) l).
Proof.
  induction j as [|j IH]; intros m l n Hm HS Hle Hn; [lia|].
  rewrite range_down_cons by lia.
  destruct l as [|x l]; [done|]. cbn [thinned].
  set (L := (2 ^ (m - 1))%Z).
  assert (HL : n ≠ m → (2 ^ n ≤ L)%Z) by (intros; apply pow2_mono; lia).
  destruct (L <? age today x)%Z eqn:Hx.
  - apply Z.ltb_lt in Hx.
    set (k := count_older today L l).
    assert (Hrest : Forall (λ y, (age today y ≤ L)%Z) (drop k l))
      by (apply count_older_rest; eauto using ascending_tail).
    destruct (decide (n = m)) as [->|Hnm].
    + rewrite !filter_cons_True
        by (apply Forall_inv in Hle; unfold in_bucket; fold L; lia).
      simpl. f_equal. apply bucket_none_young. fold L.
      eapply sublist_Forall; [apply thinned_sublist|done].
    + rewrite !filter_cons_False by (unfold in_bucket; lia).
      rewrite (IH (m - 1)%Z) by
        (try lia; try done; eauto using ascending_drop, ascending_tail).
      rewrite <- (take_drop k l) at 2.
      rewrite filter_app, (bucket_none_old n (take k l)); [done|].
      eapply Forall_impl; [apply count_older_take|]. simpl. intros; lia.
  - apply Z.ltb_ge in Hx.
    assert (Hall : Forall (λ y, (age today y ≤ L)%Z) (x :: l)).
    { constructor; [done|].
      eapply Forall_impl; [by apply ascending_head_oldest|]. simpl; intros; lia. }
    destruct (decide (n = m)) as [->|Hnm].
    + rewrite !bucket_none_young; [done|done|].
      eapply sublist_Forall; [apply thinned_sublist|done].
    + apply (IH (m - 1)%Z); try done; lia.
Qed.
End sorted.

(** * The decisions depend on the ages and identifiers only *)

Section transport.
Context (C : BackupSet.constants) (today today' : Z).
Context (snaps : gmap string (list string)).
Context (f : image → image).
Hypothesis f_age : ∀ x, age today' (f x) = age today x.
Hypothesis f_id : ∀ x, id (f x) = id x.

Lemma expired_transport l : expired C today' (f <$> l) = expired C today l.
Proof.
  induction l as [|x l IH]; [done|].
  cbn [fmap list_fmap expired]. fold (fmap f l).
  by rewrite f_age, IH, !length_cons, length_fmap.
Qed.

Lemma count_older_transport L l :
  count_older today' L (f <$> l) = count_older today L l.
Proof.
  induction l as [|x l IH]; [done|].
  cbn [fmap list_fmap count_older]. fold (fmap f l). by rewrite f_age, IH.
Qed.

Lemma keeping_transport (l : list image) : keeping_of <$> (f <$> l) = keeping_of <$> l.
Proof.
  rewrite <- list_fmap_compose. apply list_fmap_ext. intros _ x _.
  unfold keeping_of. simpl. by rewrite f_id.
Qed.

Lemma removing_transport (l : list image) :
  removing_of snaps <$> (f <$> l) = removing_of snaps <$> l.
Proof.
  rewrite <- list_fmap_compose. apply list_fmap_ext. intros _ x _.
  unfold removing_of. simpl. by rewrite f_id.
Qed.

Lemma thin_transport ns : ∀ l,
  thin today' snaps ns (f <$> l) = thin today snaps ns l.
Proof.
  induction ns as [|n ns IH]; intros [|x l]; try done.
  cbn [fmap list_fmap thin]. fold (fmap f l). rewrite f_age.
  destruct (2 ^ (n - 1) <? age today x)%Z; [|apply (IH (x :: l))].
  cbv zeta. rewrite count_older_transport, <- fmap_take, <- fmap_drop.
  rewrite removing_transport, IH. unfold keeping_of. by rewrite f_id.
Qed.

Lemma plan_transport l :
  plan C today' snaps (f <$> l) = plan C today snaps l.
Proof.
  unfold plan. rewrite length_fmap. destruct (_ <? _)%Z; [done|]. cbv zeta.
  rewrite expired_transport, <- fmap_take, <- fmap_drop.
  rewrite count_older_transport, <- fmap_take, <- fmap_drop.
  by rewrite removing_transport, keeping_transport, thin_transport.
Qed.

Lemma removed_fmap (l : list image) log : removed (f <$> l) log = f <$> removed l log.
Proof.
  revert log. induction l as [|x l IH]; intros [|e log]; try done.
  cbn [fmap list_fmap removed]. fold (fmap f l).
  destruct (is_removing e); rewrite IH; done.
Qed.

Lemma survivors_fmap (l : list image) log : survivors (f <$> l) log = f <$> survivors l log.
Proof.
  revert log. induction l as [|x l IH]; intros [|e log]; try done.
  cbn [fmap list_fmap survivors]. fold (fmap f l).
  destruct (is_removing e); rewrite IH; done.
Qed.
End transport.

Lemma age_seen_from_day_0 today x : age 0 (seen_from_day_0 today x) = age today x.
Proof. unfold seen_from_day_0, age. cbn [created_at]. lia. Qed.

Lemma ages_seen_from_day_0 today (l : list image) :
  age 0 <$> (seen_from_day_0 today <$> l) = age today <$> l.
Proof.
  rewrite <- list_fmap_compose. apply list_fmap_ext. intros _ x _.
  simpl. apply age_seen_from_day_0.
Qed.

(** * Properties of the retention engine *)

(** C2.  The literal scenario: with [MAX_ORDER = 6] and
    [DAYS_TO_KEEP_BACKUPS = 365], on twelve images aged, oldest first,
    400, 200, 80, 40, 20, 10, 5, 4, 3, 2, 1 and 0 days, the run removes
    exactly the images aged 400 and 3 and leaves the ten others: the
    deletion callback is called twice, on the first and on the ninth image
    of the group, each with its own identifier and its own snapshots. *)
Theorem scenario_12_backups today snaps imgs :
  age today <$> imgs = [400; 200; 80; 40; 20; 10; 5; 4; 3; 2; 1; 0]%Z →
  ∃ log,
    BackupSet.remove_old_backups BackupSet.class_constants imgs today snaps = Ok log
    ∧ calls log = call_of snaps <$> removed imgs log
    ∧ removed imgs log = omap (imgs !!.) [0; 8]%nat
    ∧ age today <$> removed imgs log = [400; 3]%Z
    ∧ age today <$> survivors imgs log = [200; 80; 40; 20; 10; 5; 4; 2; 1; 0]%Z.
Proof.
  intros H. rewrite plan_refines by (simpl; lia).
  eexists. split; [reflexivity|]. split; [apply calls_plan|].
  rewrite <- (plan_transport _ today 0 snaps (seen_from_day_0 today))
    by (done || apply age_seen_from_day_0).
  do 13 (destruct imgs as [|? imgs]; try discriminate H).
  injection H as H0 H1 H2 H3 H4 H5 H6 H7 H8 H9 H10 H11.
  cbn [fmap list_fmap]. unfold seen_from_day_0.
  rewrite H0, H1, H2, H3, H4, H5, H6, H7, H8, H9, H10, H11.
  match goal with |- context [plan ?C ?t ?s ?l] =>
    let log := eval vm_compute in (plan C t s l) in
    change (plan C t s l) with log
  end.
  cbn [removed survivors is_removing].
  split; [reflexivity|]. cbn [fmap list_fmap].
  by rewrite H0, H1, H2, H3, H4, H5, H6, H7, H8, H9, H10, H11.
Qed.

Lemma scenario_12_backups_witness :
  let imgs := group_of_ages 737000 [400; 200; 80; 40; 20; 10; 5; 4; 3; 2; 1; 0]%Z in
  age 737000 <$> imgs = [400; 200; 80; 40; 20; 10; 5; 4; 3; 2; 1; 0]%Z
  ∧ ∃ log,
      BackupSet.remove_old_backups BackupSet.class_constants imgs 737000 ∅ = Ok log
      ∧ calls log = call_of ∅ <$> removed imgs log
      ∧ removed imgs log = omap (imgs !!.) [0; 8]%nat
      ∧ age 737000 <$> removed imgs log = [400; 3]%Z
      ∧ age 737000 <$> survivors imgs log = [200; 80; 40; 20; 10; 5; 4; 2; 1; 0]%Z.
Proof.
  split; [vm_compute; reflexivity|].
  apply (scenario_12_backups 737000 ∅). vm_compute. reflexivity.
Defined.

(** The two calls of that run, in a group whose images are [ami-0] to
    [ami-11] and whose first image has two snapshots. *)
Lemma scenario_12_backups_calls :
  let imgs := group_of_ages 737000 [400; 200; 80; 40; 20; 10; 5; 4; 3; 2; 1; 0]%Z in
  let snaps : gmap string (list string) :=
    {[ "ami-0"%string := ["snap-a"; "snap-b"]%string ]} in
  ∃ log,
    BackupSet.remove_old_backups BackupSet.class_constants imgs 737000 snaps = Ok log
    ∧ calls log = [("ami-0", ["snap-a"; "snap-b"]); ("ami-8", [])]%string.
Proof. eexists. split; vm_compute; reflexivity. Qed.

(** C3.  A group with fewer than [MAX_ORDER] images is left alone: the
    deletion callback is never invoked and every image survives. *)
Theorem small_group_untouched C images today snaps :
  (Z.of_nat (length images) < BackupSet.MAX_ORDER C)%Z →
  ∃ log,
    BackupSet.remove_old_backups C images today snaps = Ok log
    ∧ calls log = []
    ∧ removed images log = []
    ∧ survivors images log = images.
Proof.
  intros H. exists []. unfold BackupSet.remove_old_backups.
  rewrite (proj2 (Z.ltb_lt _ _) H).
  repeat split; [apply removed_nil_r|apply survivors_nil_r].
Qed.

Lemma small_group_untouched_witness :
  let imgs := group_of_ages 737000 [30; 20; 10; 3; 3]%Z in
  (Z.of_nat (length imgs) < BackupSet.MAX_ORDER BackupSet.class_constants)%Z
  ∧ ∃ log,
      BackupSet.remove_old_backups BackupSet.class_constants imgs 737000 ∅ = Ok log
      ∧ calls log = []
      ∧ removed imgs log = []
      ∧ survivors imgs log = imgs.
Proof.
  split; [reflexivity|].
  apply (small_group_untouched BackupSet.class_constants). reflexivity.
Defined.

(** An image of the group is either removed or left. *)
Lemma removed_or_survives (l : list image) log x :
  x ∈ l → x ∈ removed l log ∨ x ∈ survivors l log.
Proof.
  revert log. induction l as [|y l IH]; intros log Hx; [by apply elem_of_nil in Hx|].
  destruct log as [|e log]; [right; by rewrite survivors_nil_r|].
  simpl. apply elem_of_cons in Hx as [->|Hx].
  - destruct (is_removing e); [left|right]; apply elem_of_cons; by left.
  - destruct (IH log Hx); destruct (is_removing e); rewrite ?elem_of_cons; auto.
Qed.

Lemma lower_bounds_of_buckets m :
  Forall (λ n, (2 ≤ 2 ^ (n - 1))%Z) (BackupSet.range_down m 1).
Proof.
  apply Forall_forall. intros n Hn%elem_of_range_down.
  change 2%Z with (2 ^ 1)%Z at 1. apply pow2_mono. lia.
Qed.

(** C6, as the code has it.  With [DAYS_TO_KEEP_BACKUPS] at least 2 (it is
    365), whatever the group and whatever [MAX_ORDER >= 2]: the deletion
    callback is invoked on the removed images only, each of them is more
    than 2 days old, and so every image aged at most 2 days survives. *)
Theorem recent_backups_survive C images today snaps :
  (2 ≤ BackupSet.MAX_ORDER C)%Z →
  (2 ≤ BackupSet.DAYS_TO_KEEP_BACKUPS C)%Z →
  ∃ log,
    BackupSet.remove_old_backups C images today snaps = Ok log
    ∧ calls log = call_of snaps <$> removed images log
    ∧ Forall (λ x, (2 < age today x)%Z) (removed images log)
    ∧ ∀ x, x ∈ images → (age today x ≤ 2)%Z →
           x ∈ survivors images log ∧ x ∉ removed images log.
Proof.
  intros HC HD. rewrite plan_refines by done.
  eexists. split; [reflexivity|]. split; [apply calls_plan|].
  assert (Hold : Forall (λ x, (2 < age today x)%Z)
                   (removed images (plan C today snaps images))).
  { rewrite removed_plan. destruct (_ <? _)%Z; [constructor|]. cbv zeta.
    apply Forall_app. split.
    - eapply Forall_impl; [apply expired_take|]. simpl. intros; lia.
    - apply removed_thin_older, lower_bounds_of_buckets. }
  split; [done|]. intros x Hx Hage.
  assert (Hnot : x ∉ removed images (plan C today snaps images)).
  { intros Hin. rewrite Forall_forall in Hold. specialize (Hold x Hin). lia. }
  split; [|done].
  by destruct (removed_or_survives images (plan C today snaps images) x Hx).
Qed.

Lemma recent_backups_survive_witness :
  let imgs := group_of_ages 737000 [9; 8; 7; 3; 2; 2; 1; 0]%Z in
  (2 ≤ BackupSet.MAX_ORDER BackupSet.class_constants)%Z
  ∧ (2 ≤ BackupSet.DAYS_TO_KEEP_BACKUPS BackupSet.class_constants)%Z
  ∧ ∃ log,
      BackupSet.remove_old_backups BackupSet.class_constants imgs 737000 ∅ = Ok log
      ∧ calls log = call_of ∅ <$> removed imgs log
      ∧ Forall (λ x, (2 < age 737000 x)%Z) (removed imgs log)
      ∧ ∀ x, x ∈ imgs → (age 737000 x ≤ 2)%Z →
             x ∈ survivors imgs log ∧ x ∉ removed imgs log.
Proof.
  split; [simpl; lia|]. split; [simpl; lia|].
  apply (recent_backups_survive BackupSet.class_constants); simpl; lia.
Defined.

(** C6 as stated fails for a policy that keeps backups for one day: the
    image aged 2 days is older than that, the group is not too small, and
    the absolute-age loop passes it to the deletion callback. *)
Lemma recent_backup_removed_under_short_retention :
  let C := {| BackupSet.MAX_ORDER := 2; BackupSet.DAYS_TO_KEEP_BACKUPS := 1 |} in
  let imgs := group_of_ages 737000 [2; 1; 0]%Z in
  ascending imgs
  ∧ ∃ log x,
      BackupSet.remove_old_backups C imgs 737000 ∅ = Ok log
      ∧ x ∈ imgs
      ∧ age 737000 x = 2%Z
      ∧ removed imgs log = [x]
      ∧ calls log = [(id x, [])]
      ∧ age 737000 <$> survivors imgs log = [1; 0]%Z.
Proof.
  split.
  { unfold ascending. refine (bool_decide_unpack _ _). vm_compute. exact I. }
  exists [Removing "ami-0" []], (Image "ami-0" 736998).
  split; [vm_compute; reflexivity|].
  split; [apply list_elem_of_here|].
  repeat split; reflexivity.
Qed.

(** C8, as the code has it.  On a group sorted oldest first, the deletion
    callback is invoked on the removed images in the order of the group, so
    the ages of successive calls never increase; they decrease strictly when
    no two images of the group share a creation date. *)
Theorem deletions_oldest_first C images today snaps :
  (2 ≤ BackupSet.MAX_ORDER C)%Z →
  ascending images →
  ∃ log,
    BackupSet.remove_old_backups C images today snaps = Ok log
    ∧ calls log = call_of snaps <$> removed images log
    ∧ removed images log `sublist_of` images
    ∧ StronglySorted (λ a b, (age today b ≤ age today a)%Z) (removed images log)
    ∧ (strictly_ascending images →
       StronglySorted (λ a b, (age today b < age today a)%Z) (removed images log)).
Proof.
  intros HC HS. rewrite plan_refines by done.
  eexists. split; [reflexivity|]. split; [apply calls_plan|].
  split; [apply removed_sublist|]. split.
  - eapply sublist_StronglySorted; [apply removed_sublist|by apply ascending_ages].
  - intros HSS. eapply sublist_StronglySorted; [apply removed_sublist|].
    by apply strictly_ascending_ages.
Qed.

Lemma deletions_oldest_first_witness :
  let imgs := group_of_ages 737000 [400; 399; 9; 8; 7; 3; 2; 1]%Z in
  (2 ≤ BackupSet.MAX_ORDER BackupSet.class_constants)%Z
  ∧ ascending imgs
  ∧ ∃ log,
      BackupSet.remove_old_backups BackupSet.class_constants imgs 737000 ∅ = Ok log
      ∧ calls log = call_of ∅ <$> removed imgs log
      ∧ removed imgs log `sublist_of` imgs
      ∧ StronglySorted (λ a b, (age 737000 b ≤ age 737000 a)%Z) (removed imgs log)
      ∧ (strictly_ascending imgs →
         StronglySorted (λ a b, (age 737000 b < age 737000 a)%Z) (removed imgs log)).
Proof.
  assert (Hasc : ascending (group_of_ages 737000 [400; 399; 9; 8; 7; 3; 2; 1]%Z)).
  { unfold ascending. refine (bool_decide_unpack _ _). vm_compute. exact I. }
  split; [simpl; lia|]. split; [exact Hasc|].
  apply (deletions_oldest_first BackupSet.class_constants); [simpl; lia|exact Hasc].
Defined.

(** C8 as stated fails: two images created the same day are both removed,
    and the second call is not on a strictly younger image. *)
Lemma deletions_not_strictly_younger :
  let imgs := group_of_ages 737000 [400; 400; 3; 2; 1; 0; 0]%Z in
  ascending imgs
  ∧ ∃ log,
      BackupSet.remove_old_backups BackupSet.class_constants imgs 737000 ∅ = Ok log
      ∧ age 737000 <$> removed imgs log = [400; 400]%Z
      ∧ ¬ StronglySorted (λ a b, (age 737000 b < age 737000 a)%Z) (removed imgs log).
Proof.
  split.
  { unfold ascending. refine (bool_decide_unpack _ _). vm_compute. exact I. }
  eexists. split; [vm_compute; reflexivity|]. split; [vm_compute; reflexivity|].
  refine (bool_decide_eq_false_1 _ _). vm_compute. reflexivity.
Qed.

(** ** Running again on what is left *)

Section again.
Context (C : BackupSet.constants) (today : Z).
Context (snaps : gmap string (list string)).

Lemma thin_cons_young n ns x l :
  (age today x ≤ 2 ^ (n - 1))%Z →
  thin today snaps (n :: ns) (x :: l) = thin today snaps ns (x :: l).
Proof. intros H. cbn [thin]. by rewrite (proj2 (Z.ltb_ge _ _) H). Qed.

(** What the bucket loop leaves, it leaves again. *)
Lemma thin_thinned ns : ∀ l,
  removed (thinned today ns l) (thin today snaps ns (thinned today ns l)) = [].
Proof.
  induction ns as [|n ns IH]; intros l; [by rewrite removed_nil_r|].
  destruct l as [|x l]; [done|]. cbn [thinned].
  destruct (2 ^ (n - 1) <? age today x)%Z eqn:Hx.
  - set (T := thinned today ns (drop (count_older today (2 ^ (n - 1)) l) l)).
    cbn [thin]. rewrite Hx. cbv zeta.
    rewrite (count_older_none today (2 ^ (n - 1)) T).
    + simpl. apply IH.
    + intros y Hy. unfold T in Hy. rewrite head_thinned in Hy.
      destruct (drop _ l) as [|z l'] eqn:Hd; [done|].
      injection Hy as ->. by eapply count_older_drop.
  - apply Z.ltb_ge in Hx.
    pose proof (head_thinned today ns (x :: l)) as Hh.
    destruct (thinned today ns (x :: l)) as [|z T] eqn:HT; [done|].
    injection Hh as ->. rewrite thin_cons_young by done.
    rewrite <- HT. apply IH.
Qed.

Lemma head_take_app {A} (l T : list A) k :
  head T = head (drop k l) → head (take k l ++ T) = head l.
Proof. destruct l, k; simpl; done. Qed.

Lemma survivors_all (l : list image) log : removed l log = [] → survivors l log = l.
Proof.
  revert log. induction l as [|x l IH]; intros [|e log]; try done.
  simpl. destruct (is_removing e); [done|]. intros H. by rewrite IH.
Qed.

(** A second run on the survivors of a first run removes nothing. *)
Lemma plan_again l :
  (2 ≤ BackupSet.MAX_ORDER C)%Z →
  let K := survivors l (plan C today snaps l) in
  removed K (plan C today snaps K) = [].
Proof.
  intros HC K. rewrite removed_plan.
  destruct (Z.of_nat (length K) <? BackupSet.MAX_ORDER C)%Z eqn:HK; [done|].
  apply Z.ltb_ge in HK. cbv zeta.
  assert (HKeq := survivors_plan today snaps C l). fold K in HKeq.
  destruct (Z.of_nat (length l) <? BackupSet.MAX_ORDER C)%Z eqn:Hl.
  { rewrite HKeq in HK. apply Z.ltb_lt in Hl. lia. }
  cbv zeta in HKeq.
  remember (drop (expired C today l) l) as l1 eqn:Hl1.
  set (U := (2 ^ BackupSet.MAX_ORDER C)%Z) in *.
  set (k := count_older today U l1) in *.
  set (ns := BackupSet.range_down (BackupSet.MAX_ORDER C) 1) in *.
  set (T := thinned today ns (drop k l1)) in *.
  assert (HKlen : (length K ≤ length l1)%nat).
  { rewrite HKeq, length_app, length_take.
    pose proof (sublist_length _ _ (thinned_sublist today ns (drop k l1))) as HT.
    fold T in HT. rewrite length_drop in HT. lia. }
  assert (HhK : head K = head l1).
  { rewrite HKeq. apply head_take_app. apply head_thinned. }
  assert (He : expired C today K = 0%nat).
  { apply expired_none. intros x Hx. left. rewrite HhK in Hx.
    destruct l1 as [|y l1']; [done|]. simplify_eq/=.
    destruct (expired_stop today C l x l1' (eq_sym Hl1)) as [?|Hshort]; [done|].
    simpl in *. lia. }
  rewrite He, take_0, drop_0, app_nil_l.
  assert (Hk : count_older today U K = length (take k l1)).
  { rewrite HKeq. apply count_older_all; [apply count_older_take|].
    intros x Hx. unfold T in Hx. rewrite head_thinned in Hx.
    destruct (drop k l1) as [|z l'] eqn:Hd; [done|]. injection Hx as ->.
    by eapply count_older_drop. }
  rewrite Hk. rewrite HKeq at 1 2. rewrite drop_app_length. apply thin_thinned.
Qed.
End again.

(** C7.  Running again, the same day, on what a first run left removes
    nothing: the callback is not invoked and everything survives. *)
Theorem prune_idempotent C images today snaps :
  (2 ≤ BackupSet.MAX_ORDER C)%Z →
  ∃ log1,
    BackupSet.remove_old_backups C images today snaps = Ok log1
    ∧ ∃ log2,
        BackupSet.remove_old_backups C (survivors images log1) today snaps = Ok log2
        ∧ calls log2 = []
        ∧ removed (survivors images log1) log2 = []
        ∧ survivors (survivors images log1) log2 = survivors images log1.
Proof.
  intros HC. rewrite plan_refines by done. eexists. split; [reflexivity|].
  rewrite plan_refines by done. eexists. split; [reflexivity|].
  pose proof (plan_again C today snaps images HC) as H. cbv zeta in H.
  split; [by rewrite calls_plan, H|]. split; [done|]. by apply survivors_all.
Qed.

Lemma prune_idempotent_witness :
  let imgs := group_of_ages 737000 [400; 200; 80; 40; 20; 10; 5; 4; 3; 2; 1; 0]%Z in
  (2 ≤ BackupSet.MAX_ORDER BackupSet.class_constants)%Z
  ∧ ∃ log1,
      BackupSet.remove_old_backups BackupSet.class_constants imgs 737000 ∅ = Ok log1
      ∧ ∃ log2,
          BackupSet.remove_old_backups BackupSet.class_constants
            (survivors imgs log1) 737000 ∅ = Ok log2
          ∧ calls log2 = []
          ∧ removed (survivors imgs log1) log2 = []
          ∧ survivors (survivors imgs log1) log2 = survivors imgs log1.
Proof.
  split; [simpl; lia|].
  apply (prune_idempotent BackupSet.class_constants). simpl; lia.
Defined.

(** ** One survivor per bucket *)

(** If what is left of a bucket is the first image the bucket had in a
    sorted group, the bucket holds at most one survivor, the oldest. *)
Lemma bucket_unique_first today n images kept :
  ascending images →
  filter (in_bucket today n) kept = take 1 (filter (in_bucket today n) images) →
  bucket_unique today n images kept.
Proof.
  intros HS Heq. unfold bucket_unique. rewrite Heq.
  assert (HSf : ascending (filter (in_bucket today n) images))
    by (eapply sublist_StronglySorted; [apply sublist_filter|done]).
  destruct (filter (in_bucket today n) images) as [|y F] eqn:HF.
  { split; [simpl; lia|]. intros b Hb. by apply elem_of_nil in Hb. }
  split; [simpl; lia|]. intros b Hb. simpl in Hb.
  apply list_elem_of_singleton in Hb as ->. split; [done|].
  intros x Hx Hin.
  assert (Hxf : x ∈ y :: F) by (rewrite <- HF; by apply list_elem_of_filter).
  apply elem_of_cons in Hxf as [->|Hxf]; [lia|].
  pose proof (ascending_head_oldest today y F HSf) as Hold.
  rewrite Forall_forall in Hold. by apply Hold.
Qed.

(** C1, as the code has it.  For a group sorted oldest first that has at
    least [MAX_ORDER] images, with [MAX_ORDER >= 2] and
    [DAYS_TO_KEEP_BACKUPS >= 2 ^ MAX_ORDER] (as 6 and 365 are), after the run
    every bucket [(2^(n-1), 2^n]], [2 <= n <= MAX_ORDER], holds at most one
    survivor, and that survivor is the oldest image the bucket had. *)
Theorem one_survivor_per_bucket C images today snaps n :
  (2 ≤ BackupSet.MAX_ORDER C)%Z →
  (2 ^ BackupSet.MAX_ORDER C ≤ BackupSet.DAYS_TO_KEEP_BACKUPS C)%Z →
  ascending images →
  (BackupSet.MAX_ORDER C ≤ Z.of_nat (length images))%Z →
  (2 ≤ n ≤ BackupSet.MAX_ORDER C)%Z →
  ∃ log,
    BackupSet.remove_old_backups C images today snaps = Ok log
    ∧ bucket_unique today n images (survivors images log).
Proof.
  intros HC HD HS Hlen Hn. rewrite plan_refines by done.
  eexists. split; [reflexivity|].
  apply bucket_unique_first; [done|].
  rewrite survivors_plan, (proj2 (Z.ltb_ge _ _) Hlen). cbv zeta.
  set (e := expired C today images).
  set (l1 := drop e images).
  set (k := count_older today (2 ^ BackupSet.MAX_ORDER C) l1).
  assert (Hpow : (2 ^ n ≤ 2 ^ BackupSet.MAX_ORDER C)%Z) by (apply pow2_mono; lia).
  assert (H1 : filter (in_bucket today n) (take e images) = []).
  { apply bucket_none_old. eapply Forall_impl; [apply expired_take|].
    simpl. intros; lia. }
  assert (H2 : filter (in_bucket today n) (take k l1) = []).
  { apply bucket_none_old. eapply Forall_impl; [apply count_older_take|].
    simpl. intros; lia. }
  assert (HR : filter (in_bucket today n) images
               = filter (in_bucket today n) (drop k l1)).
  { rewrite <- (take_drop e images) at 1. fold l1.
    rewrite <- (take_drop k l1) at 1. by rewrite !filter_app, H1, H2. }
  rewrite HR, filter_app, H2, app_nil_l.
  apply (thinned_buckets today (Z.to_nat (BackupSet.MAX_ORDER C - 1))); [lia| | |done].
  - by apply ascending_drop, ascending_drop.
  - by apply count_older_rest, ascending_drop.
Qed.

Lemma one_survivor_per_bucket_witness :
  let imgs := group_of_ages 737000 [400; 200; 80; 40; 20; 10; 5; 4; 3; 2; 1; 0]%Z in
  (2 ≤ BackupSet.MAX_ORDER BackupSet.class_constants)%Z
  ∧ (2 ^ BackupSet.MAX_ORDER BackupSet.class_constants
     ≤ BackupSet.DAYS_TO_KEEP_BACKUPS BackupSet.class_constants)%Z
  ∧ ascending imgs
  ∧ (BackupSet.MAX_ORDER BackupSet.class_constants ≤ Z.of_nat (length imgs))%Z
  ∧ (2 ≤ 2 ≤ BackupSet.MAX_ORDER BackupSet.class_constants)%Z
  ∧ ∃ log,
      BackupSet.remove_old_backups BackupSet.class_constants imgs 737000 ∅ = Ok log
      ∧ bucket_unique 737000 2 imgs (survivors imgs log).
Proof.
  assert (Hasc : ascending
    (group_of_ages 737000 [400; 200; 80; 40; 20; 10; 5; 4; 3; 2; 1; 0]%Z)).
  { unfold ascending. refine (bool_decide_unpack _ _). vm_compute. exact I. }
  split; [simpl; lia|]. split; [simpl; lia|]. split; [exact Hasc|].
  split; [simpl; lia|]. split; [simpl; lia|].
  apply (one_survivor_per_bucket BackupSet.class_constants);
    [simpl; lia|simpl; lia|exact Hasc|simpl; lia|simpl; lia].
Defined.

(** C1 as stated fails on a short group: two images aged 4 and 3 days are
    fewer than [MAX_ORDER], so the run leaves both in the bucket (2, 4]. *)
Lemma short_group_shares_a_bucket :
  let imgs := group_of_ages 737000 [4; 3]%Z in
  ascending imgs
  ∧ (2 ≤ 2 ≤ BackupSet.MAX_ORDER BackupSet.class_constants)%Z
  ∧ ∃ log,
      BackupSet.remove_old_backups BackupSet.class_constants imgs 737000 ∅ = Ok log
      ∧ survivors imgs log = imgs
      ∧ filter (in_bucket 737000 2) (survivors imgs log) = imgs
      ∧ ¬ bucket_unique 737000 2 imgs (survivors imgs log).
Proof.
  split.
  { unfold ascending. refine (bool_decide_unpack _ _). vm_compute. exact I. }
  split; [simpl; lia|].
  exists []. split; [reflexivity|]. split; [reflexivity|].
  split; [vm_compute; reflexivity|].
  intros [Hlen _]. vm_compute in Hlen. lia.
Qed.

(** The floor the absolute-age loop does keep: it stops with at least
    [MAX_ORDER - 1] images ahead, one fewer than [MAX_ORDER]. *)
Lemma expired_floor C today l :
  (BackupSet.MAX_ORDER C ≤ Z.of_nat (length l))%Z →
  (BackupSet.MAX_ORDER C - 1 ≤ Z.of_nat (length (drop (expired C today l) l)))%Z.
Proof.
  induction l as [|x l IH]; intros Hlen; [simpl in *; lia|].
  cbn [expired]. destruct (_ && _) eqn:Hc; [|rewrite drop_0; lia].
  cbn [drop]. destruct (decide (BackupSet.MAX_ORDER C ≤ Z.of_nat (length l))%Z) as [Hl|Hl].
  - by apply IH.
  - assert (expired C today l = 0%nat) as ->.
    { destruct l as [|y l]; [done|]. cbn [expired].
      rewrite (proj2 (Z.leb_gt _ _)) by lia. by rewrite andb_false_r. }
    rewrite drop_0. simpl in Hlen. lia.
Qed.

(** C4, on the code.  Six images, all older than [DAYS_TO_KEEP_BACKUPS]: the
    absolute-age loop removes the oldest of them although only
    [MAX_ORDER = 6] exist, and five are left. *)
Theorem absolute_age_rule_breaks_floor :
  let imgs := group_of_ages 737000 [500; 490; 480; 470; 460; 450]%Z in
  ascending imgs
  ∧ ∃ log,
      BackupSet.remove_old_backups BackupSet.class_constants imgs 737000 ∅ = Ok log
      ∧ age 737000 <$> removed imgs log = [500]%Z
      ∧ age 737000 <$> survivors imgs log = [490; 480; 470; 460; 450]%Z
      ∧ (Z.of_nat (length (survivors imgs log))
         < BackupSet.MAX_ORDER BackupSet.class_constants)%Z.
Proof.
  split.
  { unfold ascending. refine (bool_decide_unpack _ _). vm_compute. exact I. }
  eexists. split; [vm_compute; reflexivity|].
  split; [vm_compute; reflexivity|]. split; [vm_compute; reflexivity|].
  vm_compute. reflexivity.
Qed.

(** * Termination, for any constants *)

Section termination.
Context (C : BackupSet.constants) (images : list image) (today : Z).
Context (snaps : gmap string (list string)).

Local Abbreviation num := BackupSet.backup_num.
Local Abbreviation progressed := (progressed images).

(** [_inc_backup_num] moves the cursor one image on and never exhausts a
    budget. *)
Lemma inc_advances s :
  match BackupSet._inc_backup_num images today s with
  | Ok (_, s') => num s' = S (num s)
  | IndexError => True
  | OutOfFuel => False
  end.
Proof.
  unfold BackupSet._inc_backup_num, BackupSet.bind, BackupSet._update_days_ago,
    BackupSet.ret. simpl.
  destruct (S (num s) <? length images)%nat; [|done].
  by destruct (images !! S (num s)).
Qed.

Lemma keep_advances s :
  match BackupSet._keep_and_inc images today s with
  | Ok (_, s') => num s' = S (num s) ∧ (num s' ≤ length images)%nat
  | IndexError => True
  | OutOfFuel => False
  end.
Proof.
  unfold BackupSet._keep_and_inc, BackupSet.bind, BackupSet.subscript, BackupSet.emit.
  destruct (images !! num s) as [x|] eqn:Hx; [|done].
  apply lookup_lt_Some in Hx.
  match goal with |- context [BackupSet._inc_backup_num _ _ ?s1] =>
    pose proof (inc_advances s1) as H end.
  destruct (BackupSet._inc_backup_num _ _ _) as [[r s']| |]; simpl in *; [lia|done|done].
Qed.

Lemma remove_advances s :
  match BackupSet._remove_and_inc images today snaps s with
  | Ok (_, s') => num s' = S (num s) ∧ (num s' ≤ length images)%nat
  | IndexError => True
  | OutOfFuel => False
  end.
Proof.
  unfold BackupSet._remove_and_inc, BackupSet.bind, BackupSet.subscript, BackupSet.emit.
  destruct (images !! num s) as [x|] eqn:Hx; [|done].
  apply lookup_lt_Some in Hx.
  match goal with |- context [BackupSet._inc_backup_num _ _ ?s1] =>
    pose proof (inc_advances s1) as H end.
  destruct (BackupSet._inc_backup_num _ _ _) as [[r s']| |]; simpl in *; [lia|done|done].
Qed.

Lemma remove_really_old_progress fuel : ∀ s,
  (num s ≤ length images < fuel + num s)%nat →
  progressed s (BackupSet.remove_really_old C images today snaps fuel s).
Proof.
  induction fuel as [|fuel IH]; intros s Hs; [lia|].
  cbn [BackupSet.remove_really_old]. destruct (_ && _); [|simpl; lia].
  unfold BackupSet.bind. pose proof (remove_advances s) as H.
  destruct (BackupSet._remove_and_inc _ _ _ s) as [[r s1]| |]; [|done|done].
  specialize (IH s1 ltac:(lia)). unfold progressed in *.
  destruct (BackupSet.remove_really_old _ _ _ _ _ s1) as [[r' s2]| |]; [lia|done|done].
Qed.

Lemma skip_older_progress U fuel : ∀ s,
  (num s ≤ length images < fuel + num s)%nat →
  progressed s (BackupSet.skip_older images today U fuel s).
Proof.
  induction fuel as [|fuel IH]; intros s Hs; [lia|].
  cbn [BackupSet.skip_older]. destruct (_ <? _)%Z; [|simpl; lia].
  unfold BackupSet.bind. pose proof (keep_advances s) as H.
  destruct (BackupSet._keep_and_inc _ _ s) as [[r s1]| |]; [|done|done].
  destruct r; [simpl; lia|].
  specialize (IH s1 ltac:(lia)). unfold progressed in *.
  destruct (BackupSet.skip_older _ _ _ _ s1) as [[r' s2]| |]; [lia|done|done].
Qed.

Lemma remove_others_progress L fuel : ∀ s,
  (num s ≤ length images < fuel + num s)%nat →
  progressed s (BackupSet.remove_others images today snaps L fuel s).
Proof.
  induction fuel as [|fuel IH]; intros s Hs; [lia|].
  cbn [BackupSet.remove_others]. destruct (_ <? _)%Z; [|simpl; lia].
  unfold BackupSet.bind. pose proof (remove_advances s) as H.
  destruct (BackupSet._remove_and_inc _ _ _ s) as [[r s1]| |]; [|done|done].
  destruct r; [simpl; lia|].
  specialize (IH s1 ltac:(lia)). unfold progressed in *.
  destruct (BackupSet.remove_others _ _ _ _ _ s1) as [[r' s2]| |]; [lia|done|done].
Qed.

Lemma for_n_progress fuel ns : ∀ s,
  (num s ≤ length images < fuel + num s)%nat →
  progressed s (BackupSet.for_n images today snaps ns fuel s).
Proof.
  induction ns as [|n ns IH]; intros s Hs; [simpl; lia|].
  cbn [BackupSet.for_n]. cbv zeta. destruct (_ <? _)%Z; [|by apply IH].
  unfold BackupSet.bind. pose proof (keep_advances s) as H.
  destruct (BackupSet._keep_and_inc _ _ s) as [[r s1]| |]; [|done|done].
  destruct r; [simpl; lia|].
  pose proof (remove_others_progress (2 ^ (n - 1)) fuel s1 ltac:(lia)) as H1.
  destruct (BackupSet.remove_others _ _ _ _ _ s1) as [[r' s2]| |]; [|done|done].
  simpl in H1. destruct r'; [simpl; lia|].
  specialize (IH s2 ltac:(lia)). unfold progressed in *.
  destruct (BackupSet.for_n _ _ _ _ _ s2) as [[r'' s3]| |]; [lia|done|done].
Qed.

(** The budget of [len(images) + 1] iterations per loop is never used up. *)
Lemma remove_old_backups_within_budget :
  BackupSet.remove_old_backups C images today snaps ≠ OutOfFuel.
Proof.
  unfold BackupSet.remove_old_backups.
  destruct (_ <? _)%Z; [done|]. cbv zeta.
  unfold BackupSet.bind at 1.
  destruct (BackupSet._update_days_ago images today BackupSet.init)
    as [[[] s0]| |] eqn:H0; [|done|].
  2:{ unfold BackupSet._update_days_ago in H0. by destruct (images !! _). }
  assert (Hs0 : num s0 = 0%nat).
  { unfold BackupSet._update_days_ago in H0.
    destruct (images !! _); by simplify_eq. }
  unfold BackupSet.bind at 1.
  pose proof (remove_really_old_progress (S (length images)) s0 ltac:(lia)) as H1.
  destruct (BackupSet.remove_really_old _ _ _ _ _ s0) as [[[] s1]| |];
    [|done|by destruct H1].
  simpl in H1. unfold BackupSet.bind.
  pose proof (skip_older_progress (2 ^ BackupSet.MAX_ORDER C) (S (length images)) s1
                ltac:(lia)) as H2.
  destruct (BackupSet.skip_older _ _ _ _ s1) as [[r s2]| |];
    [|done|by destruct H2].
  simpl in H2. destruct r; [done|].
  pose proof (for_n_progress (S (length images))
                (BackupSet.range_down (BackupSet.MAX_ORDER C) 1) s2 ltac:(lia)) as H3.
  destruct (BackupSet.for_n _ _ _ _ _ s2) as [[[] s3]| |];
    [done|done|by destruct H3].
Qed.
End termination.

Lemma length_range_down start stop :
  length (BackupSet.range_down start stop) = Z.to_nat (start - stop).
Proof. unfold BackupSet.range_down. by rewrite length_fmap, length_seq. Qed.

(** C9.  [remove_old_backups] terminates on every group, whatever the
    constants: no [while] loop uses up a budget of [len(images) + 1]
    iterations, because each iteration, through [_keep_and_inc] or
    [_remove_and_inc], moves the cursor exactly one image on and never past
    the end of the group; the [for] loop runs [MAX_ORDER - 1] times (not at
    all when [MAX_ORDER < 2]); and with [MAX_ORDER >= 2] the method returns
    normally. *)
Theorem prune_terminates C images today snaps :
  BackupSet.remove_old_backups C images today snaps ≠ OutOfFuel
  ∧ (∀ s stop s',
       BackupSet._keep_and_inc images today s = Ok (stop, s')
       ∨ BackupSet._remove_and_inc images today snaps s = Ok (stop, s') →
       BackupSet.backup_num s' = S (BackupSet.backup_num s)
       ∧ (BackupSet.backup_num s' ≤ length images)%nat)
  ∧ length (BackupSet.range_down (BackupSet.MAX_ORDER C) 1)
    = Z.to_nat (BackupSet.MAX_ORDER C - 1)
  ∧ ((2 ≤ BackupSet.MAX_ORDER C)%Z →
     ∃ log, BackupSet.remove_old_backups C images today snaps = Ok log
            ∧ (length log ≤ length images)%nat).
Proof.
  split; [apply remove_old_backups_within_budget|].
  split.
  { intros s stop s' [H|H].
    - pose proof (keep_advances images today s) as Hk. by rewrite H in Hk.
    - pose proof (remove_advances images today snaps s) as Hr. by rewrite H in Hr. }
  split; [apply length_range_down|].
  intros HC. rewrite plan_refines by done. eexists. split; [reflexivity|].
  unfold plan. destruct (_ <? _)%Z; [simpl; lia|]. cbv zeta.
  rewrite !length_app, !length_fmap, !length_take.
  match goal with |- context [thin ?t ?s ?ns ?l] =>
    pose proof (thin_length t s ns l) as Hth end.
  rewrite !length_drop in Hth. rewrite !length_drop. lia.
Qed.

(** * The catalogue *)

Section strings.

Lemma rfind_lower c s : (-1 ≤ rfind c s)%Z.
Proof.
  induction s as [|a s IH]; simpl; [lia|].
  destruct (0 <=? rfind c s)%Z eqn:H; [apply Z.leb_le in H; lia|].
  destruct (Ascii.eqb a c); lia.
Qed.

(** Where [rfind] points there is the character, and none after it. *)
Lemma rfind_split c s (p : nat) :
  rfind c s = Z.of_nat p →
  s = slice_upto p s +:+ String c (slice_from (S p) s)
  ∧ rfind c (slice_from (S p) s) = (-1)%Z.
Proof.
  revert p. induction s as [|a s IH]; intros p; simpl; [lia|].
  destruct (0 <=? rfind c s)%Z eqn:H.
  - apply Z.leb_le in H. intros Hp.
    destruct p as [|p]; [lia|].
    destruct (IH p ltac:(lia)) as [Hs Hr]. split; [|exact Hr].
    change (String a s = String a (slice_upto p s +:+ String c (slice_from (S p) s))).
    by f_equal.
  - apply Z.leb_gt in H. pose proof (rfind_lower c s).
    destruct (Ascii.eqb_spec a c) as [->|]; [|lia].
    intros Hp. destruct p; [|lia]. simpl. split; [done|lia].
Qed.

Lemma rfind_app c r s :
  rfind c s = (-1)%Z →
  rfind c (r +:+ String c s) = Z.of_nat (String.length r).
Proof.
  intros Hs. induction r as [|a r IH]; simpl.
  - rewrite Hs. simpl. by rewrite Ascii.eqb_refl.
  - rewrite IH. rewrite (proj2 (Z.leb_le _ _)) by lia. lia.
Qed.

Lemma slice_upto_app r s : slice_upto (String.length r) (r +:+ s) = r.
Proof. induction r as [|a r IH]; simpl; [by destruct s|by rewrite IH]. Qed.

Lemma slice_from_app r c s :
  slice_from (S (String.length r)) (r +:+ String c s) = s.
Proof. induction r as [|a r IH]; simpl; [done|]. exact IH. Qed.

Lemma rfind_cons_other c a s :
  a ≠ c → rfind c s = (-1)%Z → rfind c (String a s) = (-1)%Z.
Proof.
  intros Ha Hs. simpl. rewrite Hs. simpl.
  by destruct (Ascii.eqb_spec a c).
Qed.

Lemma high_byte_no_dash a : (128 ≤ N_of_ascii a)%N → a ≠ "-"%char.
Proof. intros H ->. vm_compute in H. by apply H. Qed.

Lemma continuation_no_dash a x : continuation a = Some x → a ≠ "-"%char.
Proof.
  unfold continuation. intros H. apply high_byte_no_dash.
  destruct (128 <=? N_of_ascii a)%N eqn:E; [|done]. by apply N.leb_le in E.
Qed.

(** A dash in the encoding is a dash among the characters. *)
Lemma code_points_no_dash n : ∀ s l,
  (String.length s ≤ n)%nat →
  code_points s = Some l → 45%N ∉ l → rfind "-" s = (-1)%Z.
Proof.
  induction n as [n IH] using lt_wf_ind. intros s l Hn Hs Hl.
  destruct s as [|a s1]; [done|].
  cbn [code_points] in Hs. cbv zeta in Hs. cbn [String.length] in Hn.
  destruct (N_of_ascii a <? 128)%N eqn:E1.
  { destruct (code_points s1) as [l1|] eqn:H1; [|done]. injection Hs as <-.
    apply not_elem_of_cons in Hl as [Ha Hl].
    apply rfind_cons_other; [by intros ->|].
    apply (IH (String.length s1) ltac:(lia) s1 l1); [lia|done|done]. }
  apply N.ltb_ge in E1. pose proof (high_byte_no_dash a E1) as Ha.
  destruct (N_of_ascii a <? 192)%N; [done|].
  destruct (N_of_ascii a <? 224)%N.
  { destruct s1 as [|a1 s2]; [done|].
    destruct (continuation a1) as [x1|] eqn:C1; [|done].
    destruct (_ <=? _)%N; [|done].
    destruct (code_points s2) as [l2|] eqn:H2; [|done]. injection Hs as <-.
    apply not_elem_of_cons in Hl as [_ Hl]. cbn [String.length] in Hn.
    apply rfind_cons_other; [done|].
    apply rfind_cons_other; [by eapply continuation_no_dash|].
    apply (IH (String.length s2) ltac:(lia) s2 l2); [lia|done|done]. }
  destruct (N_of_ascii a <? 240)%N.
  { destruct s1 as [|a1 [|a2 s3]]; [done|done|].
    destruct (continuation a1) as [x1|] eqn:C1; [|done].
    destruct (continuation a2) as [x2|] eqn:C2; [|done].
    destruct (_ && _); [|done].
    destruct (code_points s3) as [l3|] eqn:H3; [|done]. injection Hs as <-.
    apply not_elem_of_cons in Hl as [_ Hl]. cbn [String.length] in Hn.
    apply rfind_cons_other; [done|].
    apply rfind_cons_other; [by eapply continuation_no_dash|].
    apply rfind_cons_other; [by eapply continuation_no_dash|].
    apply (IH (String.length s3) ltac:(lia) s3 l3); [lia|done|done]. }
  destruct (N_of_ascii a <? 248)%N; [|done].
  destruct s1 as [|a1 [|a2 [|a3 s4]]]; [done|done|done|].
  destruct (continuation a1) as [x1|] eqn:C1; [|done].
  destruct (continuation a2) as [x2|] eqn:C2; [|done].
  destruct (continuation a3) as [x3|] eqn:C3; [|done].
  destruct (_ && _); [|done].
  destruct (code_points s4) as [l4|] eqn:H4; [|done]. injection Hs as <-.
  apply not_elem_of_cons in Hl as [_ Hl]. cbn [String.length] in Hn.
  apply rfind_cons_other; [done|].
  apply rfind_cons_other; [by eapply continuation_no_dash|].
  apply rfind_cons_other; [by eapply continuation_no_dash|].
  apply rfind_cons_other; [by eapply continuation_no_dash|].
  apply (IH (String.length s4) ltac:(lia) s4 l4); [lia|done|done].
Qed.

Lemma forallb_Forall {A} (f : A → bool) l :
  forallb f l = true ↔ Forall (λ x, f x = true) l.
Proof.
  induction l as [|x l IH]; simpl; [by split|].
  by rewrite andb_true_iff, Forall_cons, IH.
Qed.

Lemma isdigit_spec s :
  isdigit s = true
  ↔ ∃ digits, code_points s = Some digits ∧ digits ≠ []
              ∧ Forall (λ c, unicode_digit c = true) digits.
Proof.
  unfold isdigit. split.
  - destruct (code_points s) as [[|c l]|]; [done| |done].
    intros H%forallb_Forall. by exists (c :: l).
  - intros (digits & -> & Hne & H). destruct digits as [|c l]; [done|].
    by apply forallb_Forall.
Qed.

(** The dash is no digit, so a string of digits holds none. *)
Lemma digits_no_dash s digits :
  code_points s = Some digits →
  Forall (λ c, unicode_digit c = true) digits →
  rfind "-" s = (-1)%Z.
Proof.
  intros Hs Hd.
  apply (code_points_no_dash (String.length s) s digits); [done|done|].
  intros Hin. rewrite Forall_forall in Hd. by specialize (Hd _ Hin).
Qed.

(** The name check of [get_images] is the [stamped] shape. *)
Lemma name_check name resource :
  (let pos := rfind "-" name in
   (0 <? pos)%Z && isdigit (slice_from (Z.to_nat (pos + 1)) name) = true
   ∧ slice_upto (Z.to_nat pos) name = resource)
  ↔ stamped name resource.
Proof.
  cbv zeta. split.
  - intros [[Hpos Hdig]%andb_true_iff <-]. apply Z.ltb_lt in Hpos.
    apply isdigit_spec in Hdig as (digits & Hsuf & Hne & Hdig).
    destruct (rfind_split "-" name (Z.to_nat (rfind "-" name)) ltac:(lia))
      as [Hname _].
    replace (Z.to_nat (rfind "-" name + 1)) with (S (Z.to_nat (rfind "-" name)))
      in * by lia.
    eexists _, digits. split; [exact Hname|]. split; [|done].
    destruct name as [|a name]; [simpl in Hpos; lia|].
    destruct (Z.to_nat (rfind "-" (String a name))) eqn:Hp; [lia|]. done.
  - intros (suffix & digits & -> & Hres & Hsuf & Hne & Hdig).
    change (resource +:+ "-" +:+ suffix) with (resource +:+ String "-" suffix).
    rewrite rfind_app by (by eapply digits_no_dash).
    replace (Z.to_nat (Z.of_nat (String.length resource) + 1))
      with (S (String.length resource)) by lia.
    rewrite Nat2Z.id, slice_upto_app, slice_from_app. split; [|done].
    apply andb_true_iff. split.
    + apply Z.ltb_lt. destruct resource; [done|simpl; lia].
    + apply isdigit_spec. by exists digits.
Qed.
End strings.

Lemma resource_of_spec i resource :
  resource_of i = Some resource ↔ eligible i resource.
Proof.
  unfold resource_of, eligible. rewrite <- name_check. cbv zeta.
  destruct (Public i); simpl; [by split; [|intros []]|].
  destruct (_ && _); split; try done.
  - by intros [= <-].
  - by intros [_ [_ ->]].
  - by intros [_ []].
Qed.

Section get_images.

(** One step of the loop files the image under its resource, or skips it. *)
Lemma get_images_step_spec (m : gmap string (list image)) i :
  get_images_step m i
  = match resource_of i with
    | Some g => <[g := default [] (m !! g) ++ [as_image i]]> m
    | None => m
    end.
Proof.
  unfold get_images_step, resource_of. destruct (negb (Public i)); [|done].
  cbv zeta. destruct (_ && _); [|done].
  set (g := slice_upto _ _).
  destruct (m !! g) as [l|] eqn:Hg; [by rewrite Hg|].
  by rewrite lookup_insert_eq, insert_insert_eq.
Qed.

Lemma foldl_get_images_lookup response : ∀ (m : gmap string (list image)) g,
  foldl get_images_step m response !! g
  = match as_image <$> filter (λ i, resource_of i = Some g) response with
    | [] => m !! g
    | l => Some (default [] (m !! g) ++ l)
    end.
Proof.
  induction response as [|i response IH]; intros m g; [done|].
  cbn [foldl]. rewrite IH, get_images_step_spec, filter_cons.
  destruct (resource_of i) as [g'|] eqn:Hi.
  - destruct (decide (g' = g)) as [->|Hne].
    + rewrite decide_True by done. rewrite lookup_insert_eq. cbn [fmap list_fmap default].
      destruct (as_image <$> filter _ response) as [|x l];
        [done|]. unfold Datatypes.id. by rewrite <- app_assoc.
    + rewrite decide_False by congruence. by rewrite lookup_insert_ne.
  - by rewrite decide_False.
Qed.

(** The group of a resource is made of the images filed under it, in the
    order of the listing; a resource with no such image has no group. *)
Lemma get_images_lookup response g :
  get_images response !! g
  = group (as_image <$> filter (λ i, resource_of i = Some g) response).
Proof.
  unfold get_images. rewrite foldl_get_images_lookup, lookup_empty.
  by destruct (as_image <$> _).
Qed.
End get_images.

(** Names [get_images] files and names it passes over: a date stamp after
    a dash is filed under what precedes the dash; a public image, a name
    without a dash, a name whose only dash comes first, a name ending in a
    dash and a name with a letter after the last dash are passed over. *)
Lemma resource_of_examples :
  resource_of (RawImage false "web-110326" "ami-1" 739923) = Some "web"%string
  ∧ resource_of (RawImage false "vpc-db-110326" "ami-2" 739923) = Some "vpc-db"%string
  ∧ resource_of (RawImage true "web-110326" "ami-3" 739923) = None
  ∧ resource_of (RawImage false "web110326" "ami-4" 739923) = None
  ∧ resource_of (RawImage false "-110326" "ami-5" 739923) = None
  ∧ resource_of (RawImage false "web-" "ami-6" 739923) = None
  ∧ resource_of (RawImage false "web-1103a" "ami-7" 739923) = None.
Proof. repeat split; vm_compute; reflexivity. Qed.

(** Beyond ASCII, as [str.isdigit] has it: a superscript two and an
    Arabic-Indic three are digits, a fraction and a Han numeral are not
    (they are numeric only); the name before the dash may hold any
    character. *)
Lemma resource_of_beyond_ascii :
  resource_of (RawImage false "web-²" "ami-1" 739923) = Some "web"%string
  ∧ resource_of (RawImage false "web-٣" "ami-2" 739923) = Some "web"%string
  ∧ resource_of (RawImage false "web-1103٣" "ami-3" 739923) = Some "web"%string
  ∧ resource_of (RawImage false "web-½" "ami-4" 739923) = None
  ∧ resource_of (RawImage false "web-三" "ami-5" 739923) = None
  ∧ resource_of (RawImage false "wéb-110326" "ami-6" 739923) = Some "wéb"%string
  ∧ code_points "²٣三" = Some [178; 1635; 19977]%N.
Proof. repeat split; vm_compute; reflexivity. Qed.

(** ** Sorting a group *)

Lemma elem_of_insert_by_date x y l : x ∈ insert_by_date y l ↔ x = y ∨ x ∈ l.
Proof.
  induction l as [|z l IH]; simpl.
  - rewrite list_elem_of_singleton, elem_of_nil. tauto.
  - destruct (_ <=? _)%Z; rewrite !elem_of_cons; [done|].
    rewrite IH. tauto.
Qed.

Lemma elem_of_sort_by_date x l : x ∈ sort_by_date l ↔ x ∈ l.
Proof.
  induction l as [|y l IH]; simpl; [done|].
  by rewrite elem_of_insert_by_date, IH, elem_of_cons.
Qed.

Lemma insert_by_date_ascending x l :
  ascending l → ascending (insert_by_date x l).
Proof.
  unfold ascending. induction 1 as [|y l HS IH HF]; simpl.
  - repeat constructor.
  - destruct (created_at x <=? created_at y)%Z eqn:Hxy.
    + apply Z.leb_le in Hxy. constructor; [by constructor|].
      constructor; [done|]. eapply Forall_impl; [exact HF|]. simpl. intros; lia.
    + apply Z.leb_gt in Hxy. constructor; [done|].
      apply Forall_forall. intros z Hz%elem_of_insert_by_date.
      destruct Hz as [->|Hz]; [lia|]. rewrite Forall_forall in HF. by apply HF.
Qed.

Lemma sort_by_date_ascending l : ascending (sort_by_date l).
Proof.
  induction l as [|x l IH]; simpl; [constructor|by apply insert_by_date_ascending].
Qed.

Lemma insert_by_date_head x l :
  Forall (λ y, (created_at x ≤ created_at y)%Z) l → insert_by_date x l = x :: l.
Proof.
  destruct 1 as [|y l Hy _]; simpl; [done|].
  by rewrite (proj2 (Z.leb_le _ _) Hy).
Qed.

(** Sorting a sorted group changes nothing. *)
Lemma sort_by_date_sorted l : ascending l → sort_by_date l = l.
Proof.
  induction 1 as [|x l HS IH HF]; simpl; [done|].
  by rewrite IH, insert_by_date_head.
Qed.

(** * The orchestrator *)

Section orchestrator_facts.
Context (ec : client).
Context (today : Z) (strftime : string → string).
Context (snaps : gmap string (list string)).

Local Abbreviation engine := (BackupSet.remove_old_backups BackupSet.class_constants).

(** What a visit hands to the engine is read off the dictionary before any
    backup is created, and a backup is created exactly when the freshest
    image handed over is not of today. *)
Lemma visit_instance_visited m i v m' :
  visit_instance today strftime snaps m i = Visited v m' →
  history v = sort_by_date (default [] (subject v ≫= (m !!.)))
  ∧ pruning v = engine (history v) today snaps
  ∧ (is_Some (created v) →
     ∀ r, last (history v) = Some r → created_at r ≠ today)
  ∧ ∀ g, sort_by_date (default [] (m' !! g)) = sort_by_date (default [] (m !! g)).
Proof.
  unfold visit_instance. destruct (get_tag i "opsworks:stack"); [done|].
  cbv zeta. destruct (get_tag i "Name") as [n|] eqn:Hn; [|done].
  cbn [mbind option_bind].
  destruct (m !! n) as [l|] eqn:Hl.
  - destruct l as [|x l]; [done|].
    cbn [default from_option]. unfold Datatypes.id.
    set (images := sort_by_date (x :: l)).
    assert (Hm' : ∀ g, sort_by_date (default [] (<[n := images]> m !! g))
                       = sort_by_date (default [] (m !! g))).
    { intros g. destruct (decide (n = g)) as [->|Hne];
        [|by rewrite lookup_insert_ne].
      rewrite lookup_insert_eq, Hl. cbn [default from_option]. unfold Datatypes.id.
      apply sort_by_date_sorted, sort_by_date_ascending. }
    destruct (last images) as [r|] eqn:Hlast.
    + destruct (created_at r =? today)%Z eqn:Hr; intros [= <- <-];
        cbn [history subject created pruning mbind option_bind]; rewrite Hl;
        (split; [done|]); (split; [done|]); (split; [|done]).
      * by intros [? [=]].
      * intros _ r' Hr'. rewrite Hlast in Hr'. injection Hr' as <-.
        by apply Z.eqb_neq.
    + intros [= <- <-].
      cbn [history subject created pruning mbind option_bind]. rewrite Hl.
      (split; [done|]); (split; [done|]); (split; [|done]).
      intros _ r' Hr'. by rewrite Hlast in Hr'.
  - cbn [default from_option sort_by_date foldr last]. intros [= <- <-].
    cbn [history subject created pruning mbind option_bind]. rewrite Hl.
    repeat split; done.
Qed.

(** The only EC2 call a visit makes before pruning is [create_image]. *)
Lemma visit_instance_created m i v m' c :
  visit_instance today strftime snaps m i = Visited v m' →
  created v = Some c →
  ∃ instance_id name description noreboot,
    c = create_image instance_id name description noreboot.
Proof.
  unfold visit_instance. destruct (get_tag i "opsworks:stack"); [done|].
  cbv zeta. destruct (get_tag i "Name") as [n|]; [|done].
  assert (Hb : ∃ a b d e, backup_instance strftime i n (State i)
                          = create_image a b d e).
  { unfold backup_instance. destruct (_ || _); eauto. }
  destruct (mbind _ _) as [[|x l]|]; [done| |];
    destruct (match last _ with Some r => _ | None => false end);
    intros [= <- <-]; simpl; intros [= <-]; exact Hb.
Qed.

(** Every visit of the loop is a visit of one instance, made with a
    dictionary that still holds what was read. *)
Lemma visit_all_inv response instances : ∀ answered m,
  as_read response m →
  ∀ v, v ∈ (visit_all ec today strftime snaps answered m instances).1 →
  ∃ m0 i m1,
    as_read response m0
    ∧ visit_instance today strftime snaps m0 i = Visited v m1.
Proof.
  induction instances as [|i instances IH]; intros answered m Hm v Hv;
    [by apply elem_of_nil in Hv|].
  cbn [visit_all] in Hv.
  destruct (visit_instance today strftime snaps m i) as [| | |v0 m1] eqn:Hvi;
    [by eapply IH|by apply elem_of_nil in Hv|by apply elem_of_nil in Hv|].
  destruct (visit_instance_visited m i v0 m1 Hvi) as (_ & _ & _ & Hm1).
  destruct (first_refusal ec answered (visit_calls v0)) as [[before c]|];
    [by apply elem_of_nil in Hv|].
  destruct (pruning v0) eqn:Hpr;
    [|by apply elem_of_nil in Hv|by apply elem_of_nil in Hv].
  specialize (IH (answered ++ visit_calls v0) m1 ltac:(intros g; by rewrite Hm1) v).
  destruct (visit_all ec today strftime snaps (answered ++ visit_calls v0) m1
              instances) as [vs e].
  apply elem_of_cons in Hv as [->|Hv]; [by exists m, i, m1|by apply IH].
Qed.

Lemma visit_all_visits response instances answered m v :
  as_read response m →
  v ∈ (visit_all ec today strftime snaps answered m instances).1 →
  history v = sort_by_date (default [] (subject v ≫= (get_images response !!.)))
  ∧ pruning v = engine (history v) today snaps
  ∧ (is_Some (created v) →
     ∀ r, last (history v) = Some r → created_at r ≠ today).
Proof.
  intros Hm Hv.
  destruct (visit_all_inv response instances answered m Hm v Hv)
    as (m0 & i & m1 & Hm0 & Hvi).
  destruct (visit_instance_visited m0 i v m1 Hvi) as (Hh & Hp & Hc & _).
  split; [|done]. rewrite Hh. destruct (subject v) as [n|]; [apply Hm0|done].
Qed.
End orchestrator_facts.

Lemma as_read_initially response : as_read response (get_images response).
Proof. by intros g. Qed.

(** C5, as the code has it.  What the orchestrator hands to the retention
    engine for an instance is the group that [get_images] read under the
    instance's name at the start of the invocation, sorted by date (empty
    when there is none); when a backup is created in the visit, the freshest
    image handed over is not of today: the new backup is not part of it. *)
Theorem engine_gets_the_listing_as_read ec today strftime snaps response instances v :
  v ∈ (lambda_handler ec today strftime snaps response instances).1 →
  history v = sort_by_date (default [] (subject v ≫= (get_images response !!.)))
  ∧ pruning v
    = BackupSet.remove_old_backups BackupSet.class_constants (history v) today snaps
  ∧ (is_Some (created v) →
     ∀ r, last (history v) = Some r → created_at r ≠ today).
Proof.
  unfold lambda_handler. intros Hv.
  by eapply visit_all_visits; [apply as_read_initially|].
Qed.

Lemma run_web :
  lambda_handler obliging 739923 strftime_2026_11_03 ∅ listing_web [instance_web]
  = ([visit_web], Returned).
Proof. vm_compute. reflexivity. Qed.

Lemma engine_gets_the_listing_as_read_witness :
  visit_web ∈ (lambda_handler obliging 739923 strftime_2026_11_03 ∅ listing_web
                 [instance_web]).1
  ∧ history visit_web
    = sort_by_date (default [] (subject visit_web ≫= (get_images listing_web !!.)))
  ∧ pruning visit_web
    = BackupSet.remove_old_backups BackupSet.class_constants (history visit_web)
        739923 ∅
  ∧ (is_Some (created visit_web) →
     ∀ r, last (history visit_web) = Some r → created_at r ≠ 739923%Z).
Proof.
  assert (Hv : visit_web ∈ (lambda_handler obliging 739923 strftime_2026_11_03 ∅
                              listing_web [instance_web]).1).
  { rewrite run_web. simpl. apply list_elem_of_here. }
  split; [exact Hv|].
  exact (engine_gets_the_listing_as_read obliging 739923 strftime_2026_11_03 ∅
           listing_web [instance_web] visit_web Hv).
Defined.

(** C5 as stated fails: in that run a backup of [web] is created for today,
    and the engine is handed the two earlier backups only. *)
Lemma engine_misses_the_new_backup :
  ∃ v,
    lambda_handler obliging 739923 strftime_2026_11_03 ∅ listing_web [instance_web]
    = ([v], Returned)
    ∧ created v = Some (create_image "i-0123456789" "web-110326"
                          "Unknown as of 11/03/2026" true)
    ∧ created_at <$> history v = [739921; 739922]%Z
    ∧ ¬ sees_backup_of_today 739923 v.
Proof.
  exists visit_web. split; [apply run_web|]. split; [reflexivity|].
  split; [reflexivity|].
  intros (x & Hx & Hd). simpl in Hx.
  apply elem_of_cons in Hx as [->|Hx]; [discriminate Hd|].
  apply list_elem_of_singleton in Hx as ->. discriminate Hd.
Qed.

(** * Further properties of the retention engine *)

Section engine_more.
Context (C : BackupSet.constants) (today : Z).
Context (snaps : gmap string (list string)).

Local Abbreviation MAX := (BackupSet.MAX_ORDER C).
Local Abbreviation DAYS := (BackupSet.DAYS_TO_KEEP_BACKUPS C).

(** In a group of at least [MAX_ORDER] images, what is left starts with the
    image the absolute-age loop stopped on. *)
Lemma head_survivors_plan l :
  (MAX ≤ Z.of_nat (length l))%Z →
  head (survivors l (plan C today snaps l)) = head (drop (expired C today l) l).
Proof.
  intros Hlen. rewrite survivors_plan, (proj2 (Z.ltb_ge _ _) Hlen). cbv zeta.
  apply head_take_app, head_thinned.
Qed.

(** On a sorted group the skipping loop stops on images no older than
    [2 ^ MAX_ORDER], and only those reach the bucket loop. *)
Lemma removed_plan_ages l :
  ascending l →
  Forall (λ x, (DAYS < age today x)%Z ∨ (2 < age today x ≤ 2 ^ MAX)%Z)
    (removed l (plan C today snaps l)).
Proof.
  intros HS. rewrite removed_plan. destruct (_ <? _)%Z; [constructor|]. cbv zeta.
  apply Forall_app. split.
  - eapply Forall_impl; [apply expired_take|]. simpl. auto.
  - set (l1 := drop (expired C today l) l).
    set (l2 := drop (count_older today (2 ^ MAX) l1) l1).
    assert (H1 : Forall (λ x, (age today x ≤ 2 ^ MAX)%Z)
                   (removed l2 (thin today snaps (BackupSet.range_down MAX 1) l2))).
    { eapply sublist_Forall; [apply removed_sublist|].
      by apply count_older_rest, ascending_drop. }
    pose proof (removed_thin_older today snaps 2 (BackupSet.range_down MAX 1) l2
                  (lower_bounds_of_buckets MAX)) as H2.
    rewrite Forall_forall in *. intros x Hx. right. split; auto.
Qed.

(** A bucket holds at most one survivor, whatever [DAYS_TO_KEEP_BACKUPS]. *)
Lemma survivors_plan_bucket l n :
  ascending l →
  (MAX ≤ Z.of_nat (length l))%Z →
  (2 ≤ n ≤ MAX)%Z →
  (length (filter (in_bucket today n) (survivors l (plan C today snaps l))) ≤ 1)%nat.
Proof.
  intros HS Hlen Hn.
  rewrite survivors_plan, (proj2 (Z.ltb_ge _ _) Hlen). cbv zeta.
  set (l1 := drop (expired C today l) l).
  set (k := count_older today (2 ^ MAX) l1).
  assert (Hpow : (2 ^ n ≤ 2 ^ MAX)%Z) by (apply pow2_mono; lia).
  rewrite filter_app, (bucket_none_old today n (take k l1)), app_nil_l.
  - rewrite (thinned_buckets today (Z.to_nat (MAX - 1)) MAX (drop k l1) n);
      [|lia|by apply ascending_drop, ascending_drop
       |by apply count_older_rest, ascending_drop|done].
    rewrite length_take. lia.
  - eapply Forall_impl; [apply count_older_take|]. simpl. intros; lia.
Qed.
End engine_more.

(** X1.  With [MAX_ORDER >= 2] the run never empties a group: something of a
    non-empty group is always left, and if the oldest image is within
    [DAYS_TO_KEEP_BACKUPS] it is that image which heads what is left. *)
Theorem oldest_within_retention_survives C x l today snaps :
  (2 ≤ BackupSet.MAX_ORDER C)%Z →
  ∃ log,
    BackupSet.remove_old_backups C (x :: l) today snaps = Ok log
    ∧ survivors (x :: l) log ≠ []
    ∧ ((age today x ≤ BackupSet.DAYS_TO_KEEP_BACKUPS C)%Z →
       head (survivors (x :: l) log) = Some x).
Proof.
  intros HC. rewrite plan_refines by done. eexists. split; [reflexivity|].
  destruct (decide (BackupSet.MAX_ORDER C ≤ Z.of_nat (length (x :: l)))%Z)
    as [Hlen|Hlen].
  - pose proof (head_survivors_plan C today snaps (x :: l) Hlen) as Hh.
    pose proof (expired_floor C today (x :: l) Hlen) as Hfl.
    split.
    + intros Hnil. rewrite Hnil in Hh.
      destruct (drop _ (x :: l)); [simpl in Hfl; lia|done].
    + intros Hage. rewrite Hh, expired_none; [done|].
      intros y [= <-]. by left.
  - rewrite survivors_plan, (proj2 (Z.ltb_lt _ _)) by lia. by split.
Qed.

Lemma oldest_within_retention_survives_witness :
  let imgs := group_of_ages 737000 [300; 9; 8; 7; 6; 5; 4; 3]%Z in
  (2 ≤ BackupSet.MAX_ORDER BackupSet.class_constants)%Z
  ∧ ∃ log,
      BackupSet.remove_old_backups BackupSet.class_constants imgs 737000 ∅ = Ok log
      ∧ survivors imgs log ≠ []
      ∧ ((age 737000 (Image "ami-0" 736700)
          ≤ BackupSet.DAYS_TO_KEEP_BACKUPS BackupSet.class_constants)%Z →
         head (survivors imgs log) = Some (Image "ami-0" 736700)).
Proof.
  split; [simpl; lia|].
  apply (oldest_within_retention_survives BackupSet.class_constants
           (Image "ami-0" 736700)
           (Image "ami-1" 736991 :: Image "ami-2" 736992 :: Image "ami-3" 736993
            :: Image "ami-4" 736994 :: Image "ami-5" 736995
            :: Image "ami-6" 736996 :: [Image "ami-7" 736997])).
  simpl; lia.
Defined.

(** X2.  On a sorted group, with [MAX_ORDER >= 2], an image is removed only
    if it is older than [DAYS_TO_KEEP_BACKUPS] or aged more than 2 and at
    most [2 ^ MAX_ORDER] days; so every image older than [2 ^ MAX_ORDER] days
    and within [DAYS_TO_KEEP_BACKUPS] is left, however many there are. *)
Theorem middle_aged_backups_survive C images today snaps :
  (2 ≤ BackupSet.MAX_ORDER C)%Z →
  ascending images →
  ∃ log,
    BackupSet.remove_old_backups C images today snaps = Ok log
    ∧ Forall (λ x, (BackupSet.DAYS_TO_KEEP_BACKUPS C < age today x)%Z
                   ∨ (2 < age today x ≤ 2 ^ BackupSet.MAX_ORDER C)%Z)
        (removed images log)
    ∧ ∀ x, x ∈ images →
           (2 ^ BackupSet.MAX_ORDER C < age today x
            ≤ BackupSet.DAYS_TO_KEEP_BACKUPS C)%Z →
           x ∈ survivors images log ∧ x ∉ removed images log.
Proof.
  intros HC HS. rewrite plan_refines by done. eexists. split; [reflexivity|].
  pose proof (removed_plan_ages C today snaps images HS) as Hold.
  split; [done|]. intros x Hx Hage.
  assert (Hnot : x ∉ removed images (plan C today snaps images)).
  { intros Hin. rewrite Forall_forall in Hold. specialize (Hold x Hin). lia. }
  split; [|done].
  by destruct (removed_or_survives images (plan C today snaps images) x Hx).
Qed.

Lemma middle_aged_backups_survive_witness :
  let imgs := group_of_ages 737000 [400; 300; 200; 100; 90; 80; 70; 40; 39; 3]%Z in
  (2 ≤ BackupSet.MAX_ORDER BackupSet.class_constants)%Z
  ∧ ascending imgs
  ∧ ∃ log,
      BackupSet.remove_old_backups BackupSet.class_constants imgs 737000 ∅ = Ok log
      ∧ Forall (λ x, (BackupSet.DAYS_TO_KEEP_BACKUPS BackupSet.class_constants
                      < age 737000 x)%Z
                     ∨ (2 < age 737000 x
                        ≤ 2 ^ BackupSet.MAX_ORDER BackupSet.class_constants)%Z)
          (removed imgs log)
      ∧ ∀ x, x ∈ imgs →
             (2 ^ BackupSet.MAX_ORDER BackupSet.class_constants < age 737000 x
              ≤ BackupSet.DAYS_TO_KEEP_BACKUPS BackupSet.class_constants)%Z →
             x ∈ survivors imgs log ∧ x ∉ removed imgs log.
Proof.
  assert (Hasc : ascending
    (group_of_ages 737000 [400; 300; 200; 100; 90; 80; 70; 40; 39; 3]%Z)).
  { unfold ascending. refine (bool_decide_unpack _ _). vm_compute. exact I. }
  split; [simpl; lia|]. split; [exact Hasc|].
  apply (middle_aged_backups_survive BackupSet.class_constants);
    [simpl; lia|exact Hasc].
Defined.

(** ** How many recent images are left *)

Lemma survivors_sublist (l : list image) log : survivors l log `sublist_of` l.
Proof.
  revert log. induction l as [|x l IH]; intros [|e log]; simpl; try done.
  destruct (is_removing e); [by apply sublist_cons|by apply sublist_skip].
Qed.

Lemma length_filter_cover {A} (P Q R : A → Prop)
    `{∀ x, Decision (P x)} `{∀ x, Decision (Q x)} `{∀ x, Decision (R x)}
    (l : list A) :
  Forall (λ x, P x → Q x ∨ R x) l →
  (length (filter P l) ≤ length (filter Q l) + length (filter R l))%nat.
Proof.
  induction 1 as [|x l Hx _ IH]; [done|].
  rewrite !filter_cons.
  destruct (decide (P x)) as [HP|]; [|repeat case_decide; simpl; lia].
  destruct (Hx HP); repeat case_decide; simpl; try lia; tauto.
Qed.

(** Images of distinct dates aged between [lo] and [hi] days are at most
    [hi - lo + 1]. *)
Lemma strictly_younger_length today lo : ∀ hi l,
  StronglySorted (λ a b, (age today b < age today a)%Z) l →
  Forall (λ x, (lo ≤ age today x ≤ hi)%Z) l →
  (length l ≤ Z.to_nat (hi - lo + 1))%nat.
Proof.
  intros hi l HS. revert hi.
  induction HS as [|x l _ IH HF]; intros hi Hin; [simpl; lia|].
  apply Forall_cons in Hin as [Hx Hin].
  specialize (IH (age today x - 1)%Z). simpl.
  assert (length l ≤ Z.to_nat (age today x - 1 - lo + 1))%nat; [|lia].
  apply IH. rewrite Forall_forall in *. intros y Hy.
  specialize (HF y Hy). specialize (Hin y Hy). lia.
Qed.

(** With at most one image per bucket, at most [m - 1] images are aged more
    than 2 and at most [2 ^ m] days. *)
Lemma buckets_cover today (K : list image) (j : nat) : ∀ m,
  m = (Z.of_nat j + 1)%Z →
  (∀ n, (2 ≤ n ≤ m)%Z → (length (filter (in_bucket today n) K) ≤ 1)%nat) →
  (length (filter (λ x, (2 < age today x ≤ 2 ^ m)%Z) K) ≤ j)%nat.
Proof.
  induction j as [|j IH]; intros m Hm Hb.
  - subst m. rewrite filter_none; [done|].
    apply Forall_forall. intros x _. simpl. lia.
  - pose proof (length_filter_cover
      (λ x, (2 < age today x ≤ 2 ^ m)%Z)
      (λ x, (2 < age today x ≤ 2 ^ (m - 1))%Z)
      (in_bucket today m) K) as Hc.
    specialize (IH (m - 1)%Z ltac:(lia) ltac:(intros; apply Hb; lia)).
    specialize (Hb m ltac:(lia)).
    assert (length (filter (λ x, (2 < age today x ≤ 2 ^ m)%Z) K)
            ≤ length (filter (λ x, (2 < age today x ≤ 2 ^ (m - 1))%Z) K)
              + length (filter (in_bucket today m) K))%nat; [|lia].
    apply Hc. apply Forall_forall. intros x _ Hx. unfold in_bucket.
    destruct (decide (age today x ≤ 2 ^ (m - 1))%Z); [left|right]; lia.
Qed.

(** X3.  The count of the source's header comment.  For a group sorted
    oldest first in which no two images have the same date and none is dated
    after today, with [MAX_ORDER >= 2]: among the images left, at most
    [MAX_ORDER + 2] are aged [2 ^ MAX_ORDER] days or less (8 for
    [MAX_ORDER = 6]: today, yesterday, the day before, and one per
    bucket). *)
Theorem recent_survivors_are_few C images today snaps :
  (2 ≤ BackupSet.MAX_ORDER C)%Z →
  strictly_ascending images →
  Forall (λ x, (0 ≤ age today x)%Z) images →
  ∃ log,
    BackupSet.remove_old_backups C images today snaps = Ok log
    ∧ (length (filter (λ x, (age today x ≤ 2 ^ BackupSet.MAX_ORDER C)%Z)
                 (survivors images log))
       ≤ Z.to_nat (BackupSet.MAX_ORDER C + 2))%nat.
Proof.
  intros HC HSS Hpos. rewrite plan_refines by done.
  eexists. split; [reflexivity|].
  set (K := survivors images (plan C today snaps images)).
  destruct (decide (BackupSet.MAX_ORDER C ≤ Z.of_nat (length images))%Z)
    as [Hlen|Hlen].
  2:{ etrans; [apply length_filter|].
      pose proof (sublist_length _ _ (survivors_sublist images
                    (plan C today snaps images))). fold K in H. lia. }
  assert (HS : ascending images).
  { revert HSS. apply StronglySorted_weaken. intros; lia. }
  assert (HKs : StronglySorted (λ a b, (age today b < age today a)%Z) K).
  { eapply sublist_StronglySorted; [apply survivors_sublist|].
    by apply strictly_ascending_ages. }
  assert (HKpos : Forall (λ x, (0 ≤ age today x)%Z) K)
    by (eapply sublist_Forall; [apply survivors_sublist|done]).
  pose proof (length_filter_cover
    (λ x, (age today x ≤ 2 ^ BackupSet.MAX_ORDER C)%Z)
    (λ x, (0 ≤ age today x ≤ 2)%Z)
    (λ x, (2 < age today x ≤ 2 ^ BackupSet.MAX_ORDER C)%Z) K) as Hc.
  assert (H1 : (length (filter (λ x, (0 ≤ age today x ≤ 2)%Z) K) ≤ 3)%nat).
  { change 3%nat with (Z.to_nat (2 - 0 + 1)).
    apply (strictly_younger_length today).
    - eapply sublist_StronglySorted; [apply sublist_filter|done].
    - apply Forall_forall. by intros x [Hx _]%list_elem_of_filter. }
  assert (H2 : (length (filter (λ x, (2 < age today x
                                      ≤ 2 ^ BackupSet.MAX_ORDER C)%Z) K)
                ≤ Z.to_nat (BackupSet.MAX_ORDER C - 1))%nat).
  { apply buckets_cover; [lia|]. intros n Hn.
    by apply survivors_plan_bucket. }
  assert (length (filter (λ x, (age today x ≤ 2 ^ BackupSet.MAX_ORDER C)%Z) K)
          ≤ length (filter (λ x, (0 ≤ age today x ≤ 2)%Z) K)
            + length (filter (λ x, (2 < age today x
                                    ≤ 2 ^ BackupSet.MAX_ORDER C)%Z) K))%nat; [|lia].
  apply Hc. rewrite Forall_forall in *. intros x Hx Hle. specialize (HKpos x Hx).
  simpl in *. lia.
Qed.

Lemma recent_survivors_are_few_witness :
  let imgs := group_of_ages 737000
                [70; 64; 63; 40; 33; 20; 17; 10; 9; 6; 5; 4; 3; 2; 1; 0]%Z in
  (2 ≤ BackupSet.MAX_ORDER BackupSet.class_constants)%Z
  ∧ strictly_ascending imgs
  ∧ Forall (λ x, (0 ≤ age 737000 x)%Z) imgs
  ∧ ∃ log,
      BackupSet.remove_old_backups BackupSet.class_constants imgs 737000 ∅ = Ok log
      ∧ (length (filter (λ x, (age 737000 x
                               ≤ 2 ^ BackupSet.MAX_ORDER BackupSet.class_constants)%Z)
                   (survivors imgs log))
         ≤ Z.to_nat (BackupSet.MAX_ORDER BackupSet.class_constants + 2))%nat.
Proof.
  assert (Hasc : strictly_ascending (group_of_ages 737000
            [70; 64; 63; 40; 33; 20; 17; 10; 9; 6; 5; 4; 3; 2; 1; 0]%Z)).
  { unfold strictly_ascending. refine (bool_decide_unpack _ _). vm_compute. exact I. }
  assert (Hpos : Forall (λ x, (0 ≤ age 737000 x)%Z) (group_of_ages 737000
            [70; 64; 63; 40; 33; 20; 17; 10; 9; 6; 5; 4; 3; 2; 1; 0]%Z)).
  { refine (bool_decide_unpack _ _). vm_compute. exact I. }
  split; [simpl; lia|]. split; [exact Hasc|]. split; [exact Hpos|].
  apply (recent_survivors_are_few BackupSet.class_constants);
    [simpl; lia|exact Hasc|exact Hpos].
Defined.

(** X4.  Only ages matter: moving today and every creation date by the same
    number of days changes nothing in the run. *)
Theorem pruning_is_shift_invariant C images today snaps d :
  (2 ≤ BackupSet.MAX_ORDER C)%Z →
  BackupSet.remove_old_backups C (postponed d <$> images) (today + d) snaps
  = BackupSet.remove_old_backups C images today snaps.
Proof.
  intros HC. rewrite !plan_refines by done. f_equal.
  apply plan_transport; [|done].
  intros x. unfold age, postponed. simpl. lia.
Qed.

Lemma pruning_is_shift_invariant_witness :
  let imgs := group_of_ages 737000 [400; 200; 80; 40; 20; 10; 5; 4; 3; 2; 1; 0]%Z in
  (2 ≤ BackupSet.MAX_ORDER BackupSet.class_constants)%Z
  ∧ BackupSet.remove_old_backups BackupSet.class_constants
      (postponed 30 <$> imgs) (737000 + 30) ∅
    = BackupSet.remove_old_backups BackupSet.class_constants imgs 737000 ∅.
Proof.
  split; [simpl; lia|].
  apply (pruning_is_shift_invariant BackupSet.class_constants). simpl; lia.
Defined.

(** * The snapshot table *)

Section snapshot_pattern.

Lemma after_literal_spec p : ∀ s rest,
  after_literal p s = Some rest ↔ s = p +:+ rest.
Proof.
  induction p as [|a p IH]; intros s rest; simpl.
  - split; [by intros [= ->]|by intros ->].
  - destruct s as [|b s]; [split; discriminate|].
    destruct (Ascii.eqb_spec a b) as [->|Hab].
    + rewrite IH. split; [by intros ->|by intros [= ->]].
    + split; [discriminate|]. intros [= ? ?]. done.
Qed.

Lemma leading_run_spec s :
  s = (leading_run s).1 +:+ (leading_run s).2
  ∧ all_lower_or_digit (leading_run s).1 = true.
Proof.
  induction s as [|a s [IH1 IH2]]; [done|]. cbn [leading_run].
  destruct (is_lower_or_digit a) eqn:Ha; [|done].
  destruct (leading_run s) as [r rest]. cbn [fst snd] in *.
  change (String a r +:+ rest) with (String a (r +:+ rest)).
  split; [by f_equal|]. cbn [all_lower_or_digit]. by rewrite Ha.
Qed.

(** A run followed by a character outside the class is the leading run. *)
Lemma leading_run_app r t :
  all_lower_or_digit r = true →
  match t with String a _ => is_lower_or_digit a = false | EmptyString => True end →
  leading_run (r +:+ t) = (r, t).
Proof.
  intros Hr Ht. induction r as [|a r IH].
  - change (EmptyString +:+ t) with t.
    destruct t as [|b t]; [done|]. cbn [leading_run]. by rewrite Ht.
  - change (String a r +:+ t) with (String a (r +:+ t)).
    cbn [all_lower_or_digit leading_run] in *.
    apply andb_true_iff in Hr as [Ha Hr]. by rewrite Ha, (IH Hr).
Qed.

Lemma leading_run_longer r t :
  all_lower_or_digit r = true →
  (String.length r ≤ String.length (leading_run (r +:+ t)).1)%nat.
Proof.
  intros Hr. induction r as [|a r IH]; [simpl; lia|].
  change (String a r +:+ t) with (String a (r +:+ t)).
  cbn [all_lower_or_digit leading_run] in *.
  apply andb_true_iff in Hr as [Ha Hr]. rewrite Ha. specialize (IH Hr).
  destruct (leading_run (r +:+ t)). simpl in *. lia.
Qed.

Lemma run_of_8_inv s r rest :
  run_of_8 s = Some (r, rest) →
  s = r +:+ rest ∧ all_lower_or_digit r = true ∧ (8 ≤ String.length r)%nat.
Proof.
  unfold run_of_8. pose proof (leading_run_spec s) as [H1 H2].
  destruct (leading_run s) as [r' rest']. cbn [fst snd] in *.
  destruct (8 <=? String.length r')%nat eqn:Hlen; [|done].
  intros [= <- <-]. apply Nat.leb_le in Hlen. by repeat split.
Qed.

Lemma run_of_8_app r t :
  all_lower_or_digit r = true → (8 ≤ String.length r)%nat →
  match t with String a _ => is_lower_or_digit a = false | EmptyString => True end →
  run_of_8 (r +:+ t) = Some (r, t).
Proof.
  intros Hr Hlen Ht. unfold run_of_8. rewrite leading_run_app by done.
  by rewrite (proj2 (Nat.leb_le _ _) Hlen).
Qed.

Lemma run_of_8_some r t :
  all_lower_or_digit r = true → (8 ≤ String.length r)%nat →
  is_Some (run_of_8 (r +:+ t)).
Proof.
  intros Hr Hlen. unfold run_of_8.
  pose proof (leading_run_longer r t Hr) as Hl.
  destruct (leading_run (r +:+ t)) as [r' rest]. simpl in Hl.
  rewrite (proj2 (Nat.leb_le _ _)) by lia. done.
Qed.
End snapshot_pattern.

(** X5.  The pattern yields an image identifier exactly for a description
    made of [Created by CreateImage(i-], at least 8 characters of
    [[a-z0-9]], [) for ami-], at least 8 such characters, [ from vol-], at
    least 8 such characters, and anything after; the identifier is [ami-]
    with the second run, whole. *)
Theorem snapshot_pattern_spec desc ami_id :
  SNAPSHOT_DESC_PATTERN desc = Some ami_id ↔ names_image desc ami_id.
Proof.
  unfold SNAPSHOT_DESC_PATTERN, names_image. split.
  - intros H.
    destruct (after_literal _ desc) as [t1|] eqn:H1; [|done].
    cbn [mbind option_bind] in H.
    destruct (run_of_8 t1) as [[r1 t2]|] eqn:H2; [|done].
    cbn [mbind option_bind] in H.
    destruct (after_literal _ t2) as [t3|] eqn:H3; [|done].
    cbn [mbind option_bind] in H.
    destruct (run_of_8 t3) as [[r2 t4]|] eqn:H4; [|done].
    cbn [mbind option_bind] in H.
    destruct (after_literal _ t4) as [t5|] eqn:H5; [|done].
    cbn [mbind option_bind] in H.
    destruct (run_of_8 t5) as [[r3 t6]|] eqn:H6; [|done].
    cbn [mbind option_bind] in H.
    injection H as <-.
    apply after_literal_spec in H1, H3, H5.
    apply run_of_8_inv in H2 as (Ht1 & ? & ?), H4 as (Ht3 & ? & ?),
      H6 as (Ht5 & ? & ?).
    exists r1, r2, r3, t6. subst. by repeat split.
  - intros (r1 & r2 & r3 & tail & -> & Hr1 & Hl1 & Hr2 & Hl2 & Hr3 & Hl3 & ->).
    rewrite (proj2 (after_literal_spec _ _ _) eq_refl).
    cbn [mbind option_bind].
    rewrite run_of_8_app by done. cbn [mbind option_bind].
    rewrite (proj2 (after_literal_spec _ _ _) eq_refl).
    cbn [mbind option_bind].
    rewrite run_of_8_app by done. cbn [mbind option_bind].
    rewrite (proj2 (after_literal_spec _ _ _) eq_refl).
    cbn [mbind option_bind].
    by destruct (run_of_8_some r3 tail Hr3 Hl3) as [[] ->].
Qed.

Lemma get_snapshots_step_spec (m : gmap string (list string)) s :
  get_snapshots_step m s
  = match SNAPSHOT_DESC_PATTERN (Description s) with
    | Some ami_id => <[ami_id := default [] (m !! ami_id) ++ [SnapshotId s]]> m
    | None => m
    end.
Proof.
  unfold get_snapshots_step. cbv zeta.
  destruct (SNAPSHOT_DESC_PATTERN (Description s)) as [a|]; [|done].
  destruct (m !! a) as [l|] eqn:Ha; [by rewrite Ha|].
  by rewrite lookup_insert_eq, insert_insert_eq.
Qed.

Lemma foldl_get_snapshots_lookup response : ∀ (m : gmap string (list string)) a,
  foldl get_snapshots_step m response !! a
  = match SnapshotId <$>
          filter (λ s, SNAPSHOT_DESC_PATTERN (Description s) = Some a) response with
    | [] => m !! a
    | l => Some (default [] (m !! a) ++ l)
    end.
Proof.
  induction response as [|s response IH]; intros m a; [done|].
  cbn [foldl]. rewrite IH, get_snapshots_step_spec, filter_cons.
  destruct (SNAPSHOT_DESC_PATTERN (Description s)) as [a'|] eqn:Hs.
  - destruct (decide (a' = a)) as [->|Hne].
    + rewrite decide_True by done. rewrite lookup_insert_eq.
      cbn [fmap list_fmap default from_option].
      destruct (SnapshotId <$> filter _ response) as [|x l];
        [done|]. unfold Datatypes.id. by rewrite <- app_assoc.
    + rewrite decide_False by congruence. by rewrite lookup_insert_ne.
  - by rewrite decide_False.
Qed.

(** X6.  [get_snapshots] lists under an image identifier the snapshots whose
    description names that image, in the order of the listing, and nothing
    else; a snapshot whose description does not match is left out of every
    list, and an image no snapshot names has no entry. *)
Theorem snapshots_are_grouped_by_image response ami_id :
  get_snapshots response !! ami_id
  = match SnapshotId <$>
          filter (λ s, SNAPSHOT_DESC_PATTERN (Description s) = Some ami_id)
            response with
    | [] => None
    | l => Some l
    end.
Proof.
  unfold get_snapshots. rewrite foldl_get_snapshots_lookup, lookup_empty.
  by destruct (SnapshotId <$> _).
Qed.

(** * Further properties of the orchestrator *)

Lemma get_images_no_empty_group response : no_empty_group (get_images response).
Proof.
  intros g. rewrite get_images_lookup. by destruct (as_image <$> _).
Qed.

Lemma insert_by_date_perm x l : insert_by_date x l ≡ₚ x :: l.
Proof.
  induction l as [|y l IH]; simpl; [done|].
  destruct (_ <=? _)%Z; [done|]. by rewrite IH, Permutation_swap.
Qed.

Lemma sort_by_date_perm l : sort_by_date l ≡ₚ l.
Proof.
  induction l as [|x l IH]; simpl; [done|]. by rewrite insert_by_date_perm, IH.
Qed.

Lemma sort_by_date_not_nil x l : sort_by_date (x :: l) ≠ [].
Proof.
  intros H. pose proof (sort_by_date_perm (x :: l)) as Hp. rewrite H in Hp.
  by apply Permutation_nil_cons in Hp.
Qed.

Section orchestrator_more.
Context (ec : client).
Context (today : Z) (strftime : string → string).
Context (snaps : gmap string (list string)).

Local Abbreviation engine := (BackupSet.remove_old_backups BackupSet.class_constants).

(** The four ways a visit can go, when no group of the dictionary is
    empty. *)
Lemma visit_instance_cases m i :
  no_empty_group m →
  match visit_instance today strftime snaps m i with
  | Ignored => is_Some (get_tag i "opsworks:stack")
  | Raised_IndexError => False
  | Raised_AttributeError =>
      get_tag i "opsworks:stack" = None ∧ get_tag i "Name" = None
  | Visited v m' =>
      get_tag i "opsworks:stack" = None
      ∧ is_Some (get_tag i "Name")
      ∧ no_empty_group m'
      ∧ ∃ log, pruning v = Ok log
  end.
Proof.
  intros Hm. unfold visit_instance.
  destruct (get_tag i "opsworks:stack") as [o|]; [by eexists|].
  cbv zeta. destruct (get_tag i "Name") as [n|]; [|done].
  cbn [mbind option_bind].
  assert (Hok : ∀ l, ∃ log, engine l today snaps = Ok log).
  { intros l. rewrite plan_refines by (simpl; lia). by eexists. }
  destruct (m !! n) as [[|x l]|] eqn:Hl; [by apply Hm in Hl| |].
  - cbn [default from_option]. unfold Datatypes.id.
    assert (Hm' : no_empty_group (<[n := sort_by_date (x :: l)]> m)).
    { intros g. destruct (decide (n = g)) as [->|];
        [|by rewrite lookup_insert_ne].
      rewrite lookup_insert_eq. intros [= H]. by apply sort_by_date_not_nil in H. }
    destruct (match last _ with Some r => _ | None => false end);
      cbn [pruning]; by repeat split.
  - cbn [default from_option sort_by_date foldr last pruning]. by repeat split.
Qed.

Lemma first_refusal_obliging answered cs :
  first_refusal obliging answered cs = None.
Proof.
  revert answered. induction cs as [|c cs IH]; intros answered; [done|].
  cbn [first_refusal obliging]. by rewrite IH.
Qed.

Lemma first_refusal_app answered cs1 cs2 :
  first_refusal ec answered (cs1 ++ cs2)
  = match first_refusal ec answered cs1 with
    | Some r => Some r
    | None =>
        prod_map (app cs1) Datatypes.id <$> first_refusal ec (answered ++ cs1) cs2
    end.
Proof.
  revert answered. induction cs1 as [|c cs1 IH]; intros answered.
  - rewrite app_nil_r. cbn [app first_refusal].
    by destruct (first_refusal ec answered cs2) as [[? ?]|].
  - cbn [app first_refusal]. destruct (ec answered c); [done|].
    rewrite IH, <- app_assoc. cbn [app].
    destruct (first_refusal ec (answered ++ [c]) cs1) as [[? ?]|]; [done|].
    by destruct (first_refusal ec (answered ++ c :: cs1) cs2) as [[? ?]|].
Qed.

(** The call that raises is one of the calls, met after those before it. *)
Lemma first_refusal_Some cs : ∀ answered before c,
  first_refusal ec answered cs = Some (before, c) →
  ec (answered ++ before) c = true ∧ (before ++ [c]) `prefix_of` cs.
Proof.
  induction cs as [|c0 cs IH]; intros answered before c; [done|].
  cbn [first_refusal]. destruct (ec answered c0) eqn:Hc0.
  - intros [= <- <-]. rewrite app_nil_r. split; [done|]. by exists cs.
  - destruct (first_refusal ec (answered ++ [c0]) cs) as [[b1 c1]|] eqn:Hr; [|done].
    intros [= <- <-]. destruct (IH _ _ _ Hr) as [He Hp].
    rewrite <- app_assoc in He. split; [exact He|].
    cbn [app]. by apply prefix_cons.
Qed.

(** With the obliging client, what was answered before plays no part. *)
Lemma visit_all_obliging instances : ∀ answered answered' m,
  visit_all obliging today strftime snaps answered m instances
  = visit_all obliging today strftime snaps answered' m instances.
Proof.
  induction instances as [|i instances IH]; intros answered answered' m; [done|].
  cbn [visit_all].
  destruct (visit_instance today strftime snaps m i) as [| | |v m'];
    [apply IH|done|done|].
  rewrite !first_refusal_obliging. destruct (pruning v); [|done|done].
  by rewrite (IH _ (answered' ++ visit_calls v)).
Qed.

(** How the loop ends, against the run in which every call is answered. *)
Lemma visit_all_ending instances : ∀ answered m,
  no_empty_group m →
  ∀ vs e vs0 e0,
    visit_all ec today strftime snaps answered m instances = (vs, e) →
    visit_all obliging today strftime snaps [] m instances = (vs0, e0) →
    (e = Returned
     ↔ Forall ignored_or_named instances
       ∧ first_refusal ec answered (concat (visit_calls <$> vs0)) = None)
    ∧ e ≠ IndexError_raised
    ∧ e ≠ Engine_raised
    ∧ (e = AttributeError_raised →
       Exists (λ i, get_tag i "opsworks:stack" = None ∧ get_tag i "Name" = None)
         instances)
    ∧ (∀ before c, e = Client_raised before c →
         ec (answered ++ concat (visit_calls <$> vs) ++ before) c = true
         ∧ ∃ v, (vs ++ [v]) `prefix_of` vs0
                ∧ (before ++ [c]) `prefix_of` visit_calls v)
    ∧ ((∀ before c, e ≠ Client_raised before c) → vs = vs0 ∧ e = e0).
Proof.
  induction instances as [|i instances IH]; intros answered m Hm vs e vs0 e0.
  { intros [= <- <-] [= <- <-]. cbn [fmap list_fmap concat first_refusal].
    refine (conj _ (conj _ (conj _ (conj _ (conj _ _))))); done. }
  cbn [visit_all]. rewrite Forall_cons, Exists_cons.
  pose proof (visit_instance_cases m i Hm) as Hc.
  destruct (visit_instance today strftime snaps m i) as [| | |v m'].
  - intros Hrun Hrun0.
    destruct (IH answered m Hm vs e vs0 e0 Hrun Hrun0)
      as (H1 & H2 & H3 & H4 & H5 & H6).
    destruct Hc as [o Ho].
    refine (conj _ (conj H2 (conj H3 (conj _ (conj H5 H6))))).
    + rewrite H1. unfold ignored_or_named at 2. rewrite Ho.
      split; [intros [? ?]|intros [[_ ?] ?]]; repeat split; done.
    + intros He. right. by apply H4.
  - done.
  - destruct Hc as [Ho Hn]. intros [= <- <-] [= <- <-].
    refine (conj _ (conj _ (conj _ (conj _ (conj _ _))))); try done.
    + split; [done|]. intros [[H _] _]. unfold ignored_or_named in H.
      rewrite Hn in H. by destruct (H Ho).
    + intros _. by left.
  - destruct Hc as (Ho & Hn & Hm' & log & Hlog).
    rewrite first_refusal_obliging, Hlog. cbn [app].
    rewrite (visit_all_obliging instances (visit_calls v) [] m').
    destruct (visit_all obliging today strftime snaps [] m' instances)
      as [ws0 f0] eqn:Hrun0.
    intros Hrun [= <- <-]. cbn [fmap list_fmap concat].
    rewrite first_refusal_app.
    assert (Hnamed : ignored_or_named i) by (by intros _).
    destruct (first_refusal ec answered (visit_calls v)) as [[b1 c1]|] eqn:Hr.
    + injection Hrun as <- <-.
      destruct (first_refusal_Some _ _ _ _ Hr) as [He Hp].
      refine (conj _ (conj _ (conj _ (conj _ (conj _ _))))); try done.
      * split; [done|by intros [_ ?]].
      * intros before c [= <- <-]. split; [exact He|].
        exists v. split; [|done]. cbn [app]. apply prefix_cons, prefix_nil.
      * intros H. by destruct (H b1 c1).
    + destruct (visit_all ec today strftime snaps (answered ++ visit_calls v) m'
                  instances) as [ws f] eqn:Hws.
      injection Hrun as <- <-.
      destruct (IH (answered ++ visit_calls v) m' Hm' ws f ws0 f0 Hws Hrun0)
        as (H1 & H2 & H3 & H4 & H5 & H6).
      refine (conj _ (conj H2 (conj H3 (conj _ (conj _ _))))).
      * rewrite H1.
        destruct (first_refusal ec (answered ++ visit_calls v)
                    (concat (visit_calls <$> ws0))) as [[? ?]|];
          (split; [intros [? ?]|intros [[_ ?] ?]]); repeat split; done.
      * intros He. right. by apply H4.
      * intros before c He. destruct (H5 _ _ He) as (Hec & w & Hw1 & Hw2).
        split.
        -- cbn [fmap list_fmap concat]. rewrite <- !app_assoc.
           by rewrite <- app_assoc in Hec.
        -- exists w. split; [|done]. cbn [app]. by apply prefix_cons.
      * intros H. destruct (H6 H) as [-> ->]. done.
Qed.

(** OpsWorks instances play no part in the loop. *)
Lemma visit_all_without_opsworks instances : ∀ answered m,
  visit_all ec today strftime snaps answered m instances
  = visit_all ec today strftime snaps answered m
      (filter (λ i, get_tag i "opsworks:stack" = None) instances).
Proof.
  induction instances as [|i instances IH]; intros answered m; [done|].
  rewrite filter_cons. cbn [visit_all].
  destruct (decide (get_tag i "opsworks:stack" = None)) as [Ho|Ho].
  - cbn [visit_all].
    destruct (visit_instance today strftime snaps m i) as [| | |v m'];
      [apply IH|done|done|].
    destruct (first_refusal ec answered (visit_calls v)) as [[? ?]|]; [done|].
    destruct (pruning v); [|done|done]. by rewrite IH.
  - unfold visit_instance.
    destruct (get_tag i "opsworks:stack"); [apply IH|done].
Qed.
End orchestrator_more.

(** C10.  [get_images] files an image under a resource exactly when the
    image is not public and its name is the resource, a dash that is not the
    first character, and digits (at least one) up to the end, a digit being
    any character [str.isdigit] takes for one, ASCII or not; the group of a
    resource holds those images and no other, in the order of the listing.
    Whatever the instances and whatever the EC2 client does, the engine is
    handed, and the deletion callback is called on, images filed that way
    only, in the visits carried through and in a visit an EC2 call cut
    short. *)
Theorem catalogue_holds_stamped_private_images response :
  (∀ i resource, resource_of i = Some resource ↔ eligible i resource)
  ∧ (∀ resource,
       get_images response !! resource
       = group (as_image <$> filter (λ i, resource_of i = Some resource) response))
  ∧ (∀ ec today strftime snaps instances v,
       v ∈ (lambda_handler ec today strftime snaps response instances).1 →
       (∀ x, x ∈ history v →
             ∃ i resource, i ∈ response ∧ eligible i resource ∧ x = as_image i)
       ∧ (∀ log c, pruning v = Ok log → c ∈ calls log →
             ∃ i resource, i ∈ response ∧ eligible i resource ∧ c.1 = ImageId i)
       ∧ (∀ image_id, deregister_image image_id ∈ visit_calls v →
             ∃ i resource,
               i ∈ response ∧ eligible i resource ∧ image_id = ImageId i))
  ∧ (∀ ec today strftime snaps instances before c image_id,
       (lambda_handler ec today strftime snaps response instances).2
       = Client_raised before c →
       deregister_image image_id ∈ before ++ [c] →
       ∃ i resource, i ∈ response ∧ eligible i resource ∧ image_id = ImageId i).
Proof.
  split; [apply resource_of_spec|].
  split; [apply get_images_lookup|].
  assert (Hvisits : ∀ ec today strftime snaps instances v,
    v ∈ (lambda_handler ec today strftime snaps response instances).1 →
    (∀ x, x ∈ history v →
          ∃ i resource, i ∈ response ∧ eligible i resource ∧ x = as_image i)
    ∧ (∀ log c, pruning v = Ok log → c ∈ calls log →
          ∃ i resource, i ∈ response ∧ eligible i resource ∧ c.1 = ImageId i)
    ∧ (∀ image_id, deregister_image image_id ∈ visit_calls v →
          ∃ i resource,
            i ∈ response ∧ eligible i resource ∧ image_id = ImageId i)).
  2:{ split; [exact Hvisits|].
      intros ec today strftime snaps instances before c image_id He Hin.
      unfold lambda_handler in He.
      destruct (visit_all ec today strftime snaps [] (get_images response)
                  instances) as [vs e] eqn:Hrun.
      destruct (visit_all obliging today strftime snaps [] (get_images response)
                  instances) as [vs0 e0] eqn:Hrun0.
      destruct (visit_all_ending ec today strftime snaps instances []
                  (get_images response) (get_images_no_empty_group response)
                  vs e vs0 e0 Hrun Hrun0) as (_ & _ & _ & _ & H5 & _).
      destruct (H5 before c He) as (_ & v & [k1 Hk1] & [k2 Hk2]).
      apply (Hvisits obliging today strftime snaps instances v).
      - unfold lambda_handler. rewrite Hrun0, Hk1. cbn [fst].
        rewrite <- app_assoc. apply elem_of_app. right. apply list_elem_of_here.
      - rewrite Hk2. apply elem_of_app. by left. }
  intros ec today strftime snaps instances v Hv.
  destruct (visit_all_inv ec today strftime snaps response instances []
              (get_images response) (as_read_initially response) v Hv)
    as (m0 & i0 & m1 & _ & Hvi).
  destruct (visit_all_visits ec today strftime snaps response instances []
              (get_images response) v (as_read_initially response) Hv)
    as (Hh & Hp & _).
  assert (Hhist : ∀ x, x ∈ history v →
            ∃ i g, i ∈ response ∧ eligible i g ∧ x = as_image i).
  { intros x Hx. rewrite Hh, elem_of_sort_by_date in Hx.
    destruct (subject v) as [g|]; [|by apply elem_of_nil in Hx].
    cbn [mbind option_bind] in Hx. rewrite get_images_lookup in Hx.
    destruct (as_image <$> filter _ response) as [|y l] eqn:Hl;
      [by apply elem_of_nil in Hx|].
    cbn [group default from_option] in Hx. unfold Datatypes.id in Hx.
    rewrite <- Hl in Hx. apply list_elem_of_fmap in Hx as (i & -> & Hi).
    apply list_elem_of_filter in Hi as [He%resource_of_spec Hi]. by exists i, g. }
  assert (Hcalls : ∀ log c, pruning v = Ok log → c ∈ calls log →
            ∃ i g, i ∈ response ∧ eligible i g ∧ c.1 = ImageId i).
  { intros log c Hlog Hc. rewrite Hp, plan_refines in Hlog by (simpl; lia).
    injection Hlog as <-. rewrite calls_plan in Hc.
    apply list_elem_of_fmap in Hc as (x & -> & Hx).
    apply (sublist_subseteq _ _ (removed_sublist _ _)) in Hx.
    destruct (Hhist x Hx) as (i & g & Hi & He & ->). by exists i, g. }
  split; [exact Hhist|]. split; [exact Hcalls|].
  intros image_id Hin. unfold visit_calls in Hin.
  apply elem_of_app in Hin as [Hin|Hin].
  - destruct (created v) as [c|] eqn:Hc; [|by apply elem_of_nil in Hin].
    apply list_elem_of_singleton in Hin as <-.
    by destruct (visit_instance_created today strftime snaps m0 i0 v m1 _ Hvi Hc)
      as (? & ? & ? & ? & ?).
  - destruct (pruning v) as [log| |] eqn:Hlog;
      [|by apply elem_of_nil in Hin|by apply elem_of_nil in Hin].
    apply list_elem_of_bind in Hin as (c & Hin & Hc).
    unfold remove_backup in Hin. apply elem_of_cons in Hin as [[= ->]|Hin].
    + by apply (Hcalls log).
    + by apply list_elem_of_fmap in Hin as (? & ? & _).
Qed.

(** X7.  How [lambda_handler] ends, once the three listings are there and
    for any EC2 client.  It returns exactly when every instance that is not
    an OpsWorks one carries a tag [Name] and the EC2 client answers every
    call of the run.  It never ends on an [IndexError], be it
    of [dates[0]] or of the engine, and every pruning of a visit carried
    through returned.  When it ends on the [AttributeError] of
    [backup_instance], some instance that is not an OpsWorks one has no
    name.  When an EC2 call raises, the client did refuse that call, the
    visits carried through are the first visits of the run in which every
    call is answered, and the calls made in the visit under way are the
    first calls of the next visit of that run.  A run in which no EC2 call
    raises is the run in which every call is answered. *)
Theorem handler_ends_on_first_failure ec today strftime snaps response instances :
  ((lambda_handler ec today strftime snaps response instances).2 = Returned
   ↔ Forall ignored_or_named instances
     ∧ first_refusal ec []
         (concat (visit_calls <$>
            (lambda_handler obliging today strftime snaps response instances).1))
       = None)
  ∧ (lambda_handler ec today strftime snaps response instances).2
    ≠ IndexError_raised
  ∧ (lambda_handler ec today strftime snaps response instances).2
    ≠ Engine_raised
  ∧ (∀ v, v ∈ (lambda_handler ec today strftime snaps response instances).1 →
          ∃ log, pruning v = Ok log)
  ∧ ((lambda_handler ec today strftime snaps response instances).2
     = AttributeError_raised →
     Exists (λ i, get_tag i "opsworks:stack" = None ∧ get_tag i "Name" = None)
       instances)
  ∧ (∀ before c,
       (lambda_handler ec today strftime snaps response instances).2
       = Client_raised before c →
       ec (concat (visit_calls <$>
             (lambda_handler ec today strftime snaps response instances).1)
           ++ before) c = true
       ∧ ∃ v,
           ((lambda_handler ec today strftime snaps response instances).1 ++ [v])
           `prefix_of`
           (lambda_handler obliging today strftime snaps response instances).1
           ∧ (before ++ [c]) `prefix_of` visit_calls v)
  ∧ ((∀ before c,
        (lambda_handler ec today strftime snaps response instances).2
        ≠ Client_raised before c) →
     lambda_handler ec today strftime snaps response instances
     = lambda_handler obliging today strftime snaps response instances).
Proof.
  assert (Hok : ∀ v,
    v ∈ (lambda_handler ec today strftime snaps response instances).1 →
    ∃ log, pruning v = Ok log).
  { intros v Hv.
    destruct (visit_all_visits ec today strftime snaps response instances []
                (get_images response) v (as_read_initially response) Hv)
      as (_ & -> & _).
    rewrite plan_refines by (simpl; lia). by eexists. }
  revert Hok. unfold lambda_handler.
  destruct (visit_all ec today strftime snaps [] (get_images response) instances)
    as [vs e] eqn:Hrun.
  destruct (visit_all obliging today strftime snaps [] (get_images response)
              instances) as [vs0 e0] eqn:Hrun0.
  intros Hok.
  destruct (visit_all_ending ec today strftime snaps instances []
              (get_images response) (get_images_no_empty_group response)
              vs e vs0 e0 Hrun Hrun0) as (H1 & H2 & H3 & H4 & H5 & H6).
  cbn [fst snd]. repeat split; try done.
  - by apply H1.
  - by apply H1.
  - by apply H1.
  - by apply (H5 before c).
  - by apply (H5 before c).
  - intros H. destruct (H6 H) as [-> ->]. done.
Qed.

(** A run cut short: the client refuses its fourth call, the second
    [delete_snapshot] of the first image removed. *)
Lemma run_web_7_cut_short :
  lambda_handler_on (λ answered _, (length answered =? 3)%nat) 739923
    strftime_2026_11_03 listing_web_7 snapshots_web_7
    (Some [Reservation [instance_web]])
  = ([], Client_raised
           [ create_image "i-0123456789" "web-110326" "Unknown as of 11/03/2026" true;
             deregister_image "ami-0000000a";
             delete_snapshot "snap-00000001" ]
           (delete_snapshot "snap-00000003")).
Proof. vm_compute. reflexivity. Qed.

(** X8.  Instances tagged [opsworks:stack] are passed over: the run is the
    one the other instances alone would give. *)
Theorem opsworks_instances_are_passed_over ec today strftime snaps response instances :
  lambda_handler ec today strftime snaps response instances
  = lambda_handler ec today strftime snaps response
      (filter (λ i, get_tag i "opsworks:stack" = None) instances).
Proof. apply visit_all_without_opsworks. Qed.

(** X9.  The engine is handed a sorted group: for every visit, what is
    handed over is in ascending order of creation date and is a
    rearrangement of the group read for the instance's name. *)
Theorem engine_input_is_sorted ec today strftime snaps response instances v :
  v ∈ (lambda_handler ec today strftime snaps response instances).1 →
  ascending (history v)
  ∧ history v ≡ₚ default [] (subject v ≫= (get_images response !!.)).
Proof.
  intros Hv.
  destruct (visit_all_visits ec today strftime snaps response instances []
              (get_images response) v (as_read_initially response) Hv)
    as (-> & _ & _).
  split; [apply sort_by_date_ascending|apply sort_by_date_perm].
Qed.

Lemma engine_input_is_sorted_witness :
  visit_web ∈ (lambda_handler obliging 739923 strftime_2026_11_03 ∅ listing_web
                 [instance_web]).1
  ∧ ascending (history visit_web)
  ∧ history visit_web
    ≡ₚ default [] (subject visit_web ≫= (get_images listing_web !!.)).
Proof.
  assert (Hv : visit_web ∈ (lambda_handler obliging 739923 strftime_2026_11_03 ∅
                              listing_web [instance_web]).1).
  { rewrite run_web. simpl. apply list_elem_of_here. }
  split; [exact Hv|].
  exact (engine_input_is_sorted obliging 739923 strftime_2026_11_03 ∅
           listing_web [instance_web] visit_web Hv).
Defined.

(** X10.  One visit creates at most one backup, and creates it exactly when
    the group is empty or its freshest image is not of today.  The request
    is for the instance itself, is named after the instance and today's
    date, describes the image as of today, and asks for no reboot exactly
    when the instance is running. *)
Theorem backup_created_unless_fresh today strftime snaps m i v m' :
  visit_instance today strftime snaps m i = Visited v m' →
  (created v = None
   ↔ ∃ r, last (history v) = Some r ∧ created_at r = today)
  ∧ ∀ c, created v = Some c →
         ∃ n description,
           get_tag i "Name" = Some n
           ∧ c = create_image (InstanceId i)
                   (n +:+ "-" +:+ strftime "%m%d%y")
                   (description +:+ " as of " +:+ strftime "%m/%d/%Y")
                   (String.eqb (State i) "running").
Proof.
  unfold visit_instance. destruct (get_tag i "opsworks:stack"); [done|].
  cbv zeta. destruct (get_tag i "Name") as [n|]; [|done].
  assert (Hb : ∃ n0 d, Some n = Some n0
    ∧ backup_instance strftime i n (State i)
      = create_image (InstanceId i) (n0 +:+ "-" +:+ strftime "%m%d%y")
          (d +:+ " as of " +:+ strftime "%m/%d/%Y")
          (String.eqb (State i) "running")).
  { exists n. unfold backup_instance. destruct (_ || _); by eexists. }
  destruct (mbind _ _) as [[|x l]|]; [done| |].
  - cbn [default from_option]. unfold Datatypes.id.
    set (images := sort_by_date (x :: l)).
    destruct (last images) as [r|] eqn:Hlast.
    + destruct (created_at r =? today)%Z eqn:Hr; intros [= <- <-];
        cbn [created history]; rewrite Hlast.
      * apply Z.eqb_eq in Hr. split; [|done]. split; [by exists r|done].
      * apply Z.eqb_neq in Hr. split; [|by intros c [= <-]].
        split; [done|]. by intros (r' & [= <-] & ?).
    + intros [= <- <-]. cbn [created history]. rewrite Hlast.
      split; [|by intros c [= <-]]. split; [done|]. by intros (r' & ? & ?).
  - cbn [default from_option sort_by_date foldr last]. intros [= <- <-].
    cbn [created history last].
    split; [|by intros c [= <-]]. split; [done|]. by intros (r' & ? & ?).
Qed.

Lemma backup_created_unless_fresh_witness :
  visit_instance 739923 strftime_2026_11_03 ∅ (get_images listing_web) instance_web
  = Visited visit_web (<["web"%string := history visit_web]> (get_images listing_web))
  ∧ (created visit_web = None
     ↔ ∃ r, last (history visit_web) = Some r ∧ created_at r = 739923%Z)
  ∧ ∀ c, created visit_web = Some c →
         ∃ n description,
           get_tag instance_web "Name" = Some n
           ∧ c = create_image (InstanceId instance_web)
                   (n +:+ "-" +:+ strftime_2026_11_03 "%m%d%y")
                   (description +:+ " as of " +:+ strftime_2026_11_03 "%m/%d/%Y")
                   (String.eqb (State instance_web) "running").
Proof.
  assert (Hv : visit_instance 739923 strftime_2026_11_03 ∅
                 (get_images listing_web) instance_web
               = Visited visit_web
                   (<["web"%string := history visit_web]> (get_images listing_web))).
  { vm_compute. reflexivity. }
  split; [exact Hv|].
  exact (backup_created_unless_fresh 739923 strftime_2026_11_03 ∅ _ _ _ _ Hv).
Defined.

(** X11.  The name given to a new backup is one [get_images] files under the
    instance's name: when the instance has a non-empty name and today's
    stamp is made of digits, the image created by [backup_instance], once
    listed as a private image, is in the group of that name (whatever dashes
    the name itself holds). *)
Theorem new_backup_is_filed_under_its_instance strftime i n state image_id date :
  n ≠ ""%string →
  isdigit (strftime "%m%d%y") = true →
  ∃ name description noreboot,
    backup_instance strftime i n state
    = create_image (InstanceId i) name description noreboot
    ∧ resource_of (RawImage false name image_id date) = Some n
    ∧ get_images [RawImage false name image_id date] !! n
      = Some [Image image_id date].
Proof.
  intros Hn (digits & Hstamp & Hne & Hdig)%isdigit_spec.
  assert (Hres : resource_of
            (RawImage false (n +:+ "-" +:+ strftime "%m%d%y") image_id date)
          = Some n).
  { apply resource_of_spec. split; [done|].
    by exists (strftime "%m%d%y"), digits. }
  exists (n +:+ "-" +:+ strftime "%m%d%y").
  assert (∃ d nr, backup_instance strftime i n state
            = create_image (InstanceId i) (n +:+ "-" +:+ strftime "%m%d%y") d nr)
    as (d & nr & Hb).
  { unfold backup_instance. destruct (_ || _); by do 2 eexists. }
  exists d, nr. split; [done|]. split; [done|].
  rewrite get_images_lookup, filter_cons, decide_True by done. done.
Qed.

Lemma new_backup_is_filed_under_its_instance_witness :
  "vpc-db"%string ≠ ""%string
  ∧ isdigit (strftime_2026_11_03 "%m%d%y") = true
  ∧ ∃ name description noreboot,
      backup_instance strftime_2026_11_03 instance_web "vpc-db" "stopped"
      = create_image (InstanceId instance_web) name description noreboot
      ∧ resource_of (RawImage false name "ami-0ccccccc" 739923) = Some "vpc-db"%string
      ∧ get_images [RawImage false name "ami-0ccccccc" 739923] !! "vpc-db"%string
        = Some [Image "ami-0ccccccc" 739923].
Proof.
  split; [discriminate|]. split; [reflexivity|].
  apply (new_backup_is_filed_under_its_instance strftime_2026_11_03 instance_web);
    [discriminate|reflexivity].
Defined.

(** X12.  The EC2 calls of a visit, in order: the [create_image] call if a
    backup is made, then, for each image the engine removes, oldest first,
    [deregister_image] for it followed by [delete_snapshot] for each snapshot
    listed under its identifier (none if the identifier has no entry).
    Every image deregistered is more than 2 days old. *)
Theorem calls_of_a_visit ec today strftime snaps response instances v :
  v ∈ (lambda_handler ec today strftime snaps response instances).1 →
  ∃ log,
    pruning v = Ok log
    ∧ visit_calls v
      = option_list (created v)
        ++ (removed (history v) log ≫=
              λ x, deregister_image (id x)
                   :: (delete_snapshot <$> default [] (snaps !! id x)))
    ∧ Forall (λ x, (2 < age today x)%Z) (removed (history v) log).
Proof.
  intros Hv.
  destruct (visit_all_visits ec today strftime snaps response instances []
              (get_images response) v (as_read_initially response) Hv)
    as (Hh & Hp & _).
  rewrite plan_refines in Hp by (simpl; lia).
  eexists. split; [exact Hp|]. split.
  - unfold visit_calls. rewrite Hp, calls_plan, list_fmap_bind. done.
  - assert (HS : ascending (history v))
      by (rewrite Hh; apply sort_by_date_ascending).
    eapply Forall_impl;
      [apply (removed_plan_ages BackupSet.class_constants today snaps _ HS)|].
    simpl. intros; lia.
Qed.

Lemma calls_of_a_visit_witness :
  visit_web ∈ (lambda_handler obliging 739923 strftime_2026_11_03 ∅ listing_web
                 [instance_web]).1
  ∧ ∃ log,
      pruning visit_web = Ok log
      ∧ visit_calls visit_web
        = option_list (created visit_web)
          ++ (removed (history visit_web) log ≫=
                λ x, deregister_image (id x)
                     :: (delete_snapshot <$> default [] ((∅ : gmap string (list string)) !! id x)))
      ∧ Forall (λ x, (2 < age 739923 x)%Z) (removed (history visit_web) log).
Proof.
  assert (Hv : visit_web ∈ (lambda_handler obliging 739923 strftime_2026_11_03 ∅
                              listing_web [instance_web]).1).
  { rewrite run_web. simpl. apply list_elem_of_here. }
  split; [exact Hv|].
  exact (calls_of_a_visit obliging 739923 strftime_2026_11_03 ∅
           listing_web [instance_web] visit_web Hv).
Defined.

(** X13.  From the listings to the calls: whatever [describe_images],
    [describe_snapshots] and [describe_instances] returned, a snapshot is
    deleted only if it is in the snapshot listing with a description the
    pattern reads as naming an image, and that image is deregistered in the
    same visit. *)
Theorem snapshots_follow_their_image ec today strftime images snapshots
    describe_instances v :
  v ∈ (lambda_handler_on ec today strftime images snapshots describe_instances).1 →
  ∀ snapshot_id,
    delete_snapshot snapshot_id ∈ visit_calls v →
    ∃ s image_id,
      s ∈ snapshots
      ∧ SnapshotId s = snapshot_id
      ∧ SNAPSHOT_DESC_PATTERN (Description s) = Some image_id
      ∧ deregister_image image_id ∈ visit_calls v.
Proof.
  unfold lambda_handler_on, lambda_handler. intros Hv snapshot_id Hin.
  set (snaps := get_snapshots snapshots) in *.
  set (instances := get_instances describe_instances) in *.
  destruct (visit_all_inv ec today strftime snaps images instances []
              (get_images images) (as_read_initially images) v Hv)
    as (m0 & i0 & m1 & _ & Hvi).
  destruct (visit_all_visits ec today strftime snaps images instances []
              (get_images images) v (as_read_initially images) Hv)
    as (_ & Hp & _).
  rewrite plan_refines in Hp by (simpl; lia).
  assert (Hcalls : visit_calls v
    = option_list (created v)
      ++ (removed (history v)
            (plan BackupSet.class_constants today snaps (history v)) ≫=
            λ x, deregister_image (id x)
                 :: (delete_snapshot <$> default [] (snaps !! id x)))).
  { unfold visit_calls. rewrite Hp, calls_plan, list_fmap_bind. done. }
  rewrite Hcalls in Hin |- *.
  apply elem_of_app in Hin as [Hin|Hin].
  { destruct (created v) as [c|] eqn:Hc; [|by apply elem_of_nil in Hin].
    apply list_elem_of_singleton in Hin as <-.
    by destruct (visit_instance_created today strftime snaps m0 i0 v m1 _ Hvi Hc)
      as (? & ? & ? & ? & ?). }
  apply list_elem_of_bind in Hin as (x & Hin & Hx).
  apply elem_of_cons in Hin as [[=]|Hin].
  apply list_elem_of_fmap in Hin as (s0 & [= <-] & Hs0).
  unfold snaps, get_snapshots in Hs0.
  rewrite foldl_get_snapshots_lookup, lookup_empty in Hs0.
  destruct (SnapshotId <$> filter _ snapshots) as [|y l] eqn:Hl;
    [by apply elem_of_nil in Hs0|].
  cbn [default from_option app] in Hs0. unfold Datatypes.id in Hs0.
  rewrite <- Hl in Hs0. apply list_elem_of_fmap in Hs0 as (s & -> & Hs).
  apply list_elem_of_filter in Hs as [Hpat Hs].
  exists s, (id x). repeat split; try done.
  apply elem_of_app. right. apply list_elem_of_bind. exists x.
  split; [apply list_elem_of_here|done].
Qed.

Lemma snapshots_follow_their_image_witness :
  (visit_web_7 ∈ (lambda_handler_on obliging 739923 strftime_2026_11_03 listing_web_7
                    snapshots_web_7 (Some [Reservation [instance_web]])).1
   ∧ delete_snapshot "snap-00000003" ∈ visit_calls visit_web_7)
  ∧ ∀ snapshot_id,
      delete_snapshot snapshot_id ∈ visit_calls visit_web_7 →
      ∃ s image_id,
        s ∈ snapshots_web_7
        ∧ SnapshotId s = snapshot_id
        ∧ SNAPSHOT_DESC_PATTERN (Description s) = Some image_id
        ∧ deregister_image image_id ∈ visit_calls visit_web_7.
Proof.
  assert (Hv : visit_web_7 ∈ (lambda_handler_on obliging 739923 strftime_2026_11_03
                  listing_web_7 snapshots_web_7
                  (Some [Reservation [instance_web]])).1).
  { vm_compute. apply list_elem_of_here. }
  split.
  - split; [exact Hv|]. vm_compute.
    repeat first [apply list_elem_of_here | apply list_elem_of_further].
  - exact (snapshots_follow_their_image obliging 739923 strftime_2026_11_03
             listing_web_7 snapshots_web_7 (Some [Reservation [instance_web]])
             visit_web_7 Hv).
Defined.
